(** * AuroraDSL_python: connection pools for token-authenticated clusters

    A shallow embedding of the pool engines of this repository:

    - [connectionpooling_original.py]: [DSQLAuthenticator],
      [DSQLConnectionWrapper] and [DSQLCustomConnectionPool], the
      hand-written pool over a [queue.Queue];
    - [psycopg2_connectionpooling.py]: [DSQLPoolManager], the variant that
      hands one token to the driver's own [ThreadedConnectionPool];
    - [dsql_sqlalchemy_pool.py]: the [do_connect] handler of
      [DSQLSQLAlchemyPool];
    - [transaction_limit.py]: [DSQLConnector] and [main].

    Python methods become computations in a state-and-exception monad.  The
    state is the pool object together with a [World]: the heap of driver
    connection objects, the clock, and a log of what was asked of the
    identity service and of the transport.  What those external services
    answer is fixed by an oracle [Env], over which every theorem is
    universally quantified. *)

From stdpp Require Import prelude strings gmap.

Local Open Scope Z_scope.

(** ** Exceptions *)

Inductive exn : Type :=
  | NoCredentialsError                 (* botocore: no identity available   *)
  | ClientError (code message : string) (* botocore: the service refused     *)
  | BotoError                          (* any other failure of the client   *)
  | ValueError                         (* the service gave an empty token   *)
  | OperationalError                   (* psycopg2.connect failed           *)
  | QueueEmpty                         (* queue.Empty                       *)
  | QueueFull                          (* queue.Full                        *)
  | PoolLimitReached                   (* Exception("... 上限に達しました") *)
  | PoolNotInitialized                 (* Exception("... 初期化されていません") *)
  | PoolError                          (* psycopg2.pool.PoolError           *)
  | WorkError (tag : nat).             (* raised by the caller's own code   *)

Inductive result (A : Type) : Type :=
  | Ok (a : A)
  | Raise (e : exn).
Arguments Ok {A} a.
Arguments Raise {A} e.

Definition is_ok {A} (r : result A) : bool :=
  match r with Ok _ => true | Raise _ => false end.

(** ** The state-and-exception monad

    A raised exception keeps every effect performed before it, as in
    Python. *)

Definition M (S A : Type) : Type := S -> result A * S.

Definition ret {S A} (a : A) : M S A := fun s => (Ok a, s).

Definition raise {S A} (e : exn) : M S A := fun s => (Raise e, s).

Definition bind {S A B} (m : M S A) (k : A -> M S B) : M S B :=
  fun s =>
    match m s with
    | (Ok a, s') => k a s'
    | (Raise e, s') => (Raise e, s')
    end.

Notation "x <~ m ;; k" := (bind m (fun x => k))
  (at level 100, m at next level, right associativity).
Notation "m ;;; k" := (bind m (fun _ => k))
  (at level 100, right associativity).

(** [try: body except ...: handler].  The handler decides, exception by
    exception, what an [except] clause does; an exception no clause matches
    is re-raised by the handler itself. *)
Definition try_except {S A} (body : M S A) (handler : exn -> M S A) : M S A :=
  fun s =>
    match body s with
    | (Ok a, s') => (Ok a, s')
    | (Raise e, s') => handler e s'
    end.

(** [try: body finally: fin].  An exception of [fin] replaces the outcome of
    [body]. *)
Definition try_finally {S A} (body : M S A) (fin : M S unit) : M S A :=
  fun s =>
    match body s with
    | (r, s') =>
        match fin s' with
        | (Ok _, s'') => (r, s'')
        | (Raise e, s'') => (Raise e, s'')
        end
    end.

Definition get {S} : M S S := fun s => (Ok s, s).
Definition modify {S} (f : S -> S) : M S unit := fun s => (Ok tt, f s).

(** Run a computation on the world inside a computation on an object and the
    world. *)
Definition in_world {P W A} (m : M W A) : M (P * W) A :=
  fun s =>
    match m (snd s) with
    | (r, w') => (r, (fst s, w'))
    end.

(** [for i in range(n)], counting from [i]. *)
Fixpoint for_range_from {S} (i : nat) (n : nat) (body : nat -> M S unit) : M S unit :=
  match n with
  | O => ret tt
  | Datatypes.S n' => body i ;;; for_range_from (Datatypes.S i) n' body
  end.

Definition for_range {S} (n : Z) (body : nat -> M S unit) : M S unit :=
  for_range_from 0%nat (Z.to_nat n) body.

(** ** The world outside the pool *)

(** A token as the identity service returns it.  [mint_id] is the ordinal of
    the [get_auth_token] call that produced it and [expires_in] the validity
    that call asked for; the program reads neither. *)
Record Token : Type := mkToken {
  secret : string;   (* the token text                         *)
  expires_in : Z;    (* the validity asked for, in seconds      *)
  mint_id : nat      (* which get_auth_token call produced it   *)
}.

(** A psycopg2 connection object: the password it was opened with and its
    [closed] attribute. *)
Record PgConnection : Type := mkPg { password : Token; closed : bool }.

Inductive Event : Type :=
  | EvAcquire                (* self._pool_lock acquired          *)
  | EvRelease                (* self._pool_lock released          *)
  | EvMint (n : nat)         (* round trip to the identity service *)
  | EvConnect (n : nat)      (* psycopg2.connect, with token n     *)
  | EvProbe (c : nat)        (* SELECT 1 on connection c           *)
  | EvClose (c : nat).       (* connection c closed                *)

Record World : Type := mkWorld {
  now : Z;                          (* datetime.now()                        *)
  heap : list PgConnection;         (* connection objects, by identity       *)
  dsql_client : bool;               (* DSQLAuthenticator.dsql_client is set  *)
  auth_calls : nat;                 (* get_auth_token calls so far           *)
  connect_calls : list nat;         (* mint_id of every psycopg2.connect     *)
  probes : nat;                     (* SELECT 1 probes so far                *)
  trace : list Event                (* everything above, in order            *)
}.

(** What [generate_db_connect_admin_auth_token] can do. *)
Inductive generated : Type :=
  | Generated (token : string)
  | GenNoCredentials
  | GenClientError (code message : string)
  | GenOther.

Definition fresh_world : World :=
  mkWorld 0 [] false 0 [] 0 [].

(** What the external services answer. *)
Record Env : Type := mkEnv {
  env_client : nat -> bool;            (* boto3.client(...) succeeds          *)
  env_generate : nat -> generated;     (* generate_db_connect_admin_auth_token *)
  env_connect : nat -> bool;           (* the n-th psycopg2.connect succeeds  *)
  env_probe : nat -> nat -> bool       (* the n-th probe, on connection c     *)
}.

(** Services that never fail, and an identity service that is down. *)
Definition env_up : Env :=
  mkEnv (fun _ => true) (fun _ => Generated "token") (fun _ => true) (fun _ _ => true).

Definition env_auth_down : Env :=
  mkEnv (fun _ => true) (fun _ => GenClientError "AccessDenied" "denied")
        (fun _ => true) (fun _ _ => true).

(** An identity service that answers the first call and refuses every
    later one. *)
Definition env_one_token : Env :=
  mkEnv (fun _ => true)
        (fun n => match n with
                  | O => Generated "token"
                  | _ => GenClientError "AccessDenied" "denied"
                  end)
        (fun _ => true) (fun _ _ => true).


(** A transport that accepts the first connect and refuses every later
    one; the identity service answers throughout. *)
Definition env_link_lost : Env :=
  mkEnv (fun _ => true) (fun _ => Generated "token")
        (fun n => match n with O => true | _ => false end)
        (fun _ _ => true).

Definition log_event (e : Event) (w : World) : World :=
  mkWorld (now w) (heap w) (dsql_client w) (auth_calls w) (connect_calls w)
          (probes w) (trace w ++ [e]).

Definition is_closed (w : World) (c : nat) : bool :=
  match heap w !! c with
  | Some o => closed o
  | None => true
  end.

Definition mark_closed (c : nat) (w : World) : World :=
  mkWorld (now w)
          (match heap w !! c with
           | Some o => <[c := mkPg (password o) true]> (heap w)
           | None => heap w
           end)
          (dsql_client w) (auth_calls w) (connect_calls w) (probes w) (trace w).

Definition probed (c : nat) (w : World) : World :=
  mkWorld (now w) (heap w) (dsql_client w) (auth_calls w) (connect_calls w)
          (Datatypes.S (probes w)) (trace w ++ [EvProbe c]).

(** Events of the transport and of the identity service, as opposed to
    those of the lock. *)
Definition io_event (e : Event) : Prop :=
  match e with
  | EvAcquire | EvRelease => False
  | _ => True
  end.

(** Number of connection objects that are open. *)
Definition open_connections (w : World) : list nat :=
  filter (fun c => is_closed w c = false) (seq 0 (length (heap w))).

Definition live_connections (w : World) : nat := length (open_connections w).

(** Does a trace keep the lock free whenever the identity service or the
    transport is being talked to?  [held] says whether the lock is held
    where the trace starts. *)
Fixpoint io_outside_lock (held : bool) (tr : list Event) : bool :=
  match tr with
  | [] => true
  | EvAcquire :: tr' => io_outside_lock true tr'
  | EvRelease :: tr' => io_outside_lock false tr'
  | (EvMint _ | EvConnect _ | EvProbe _) :: tr' => negb held && io_outside_lock held tr'
  | EvClose _ :: tr' => io_outside_lock held tr'
  end.

(** From [w] to [w'] the trace has grown by events that are not of the
    lock. *)
Definition appends_io (w w' : World) : Prop :=
  exists evs, trace w' = trace w ++ evs /\ Forall io_event evs.

(** A round trip to the identity service or to the cluster. *)
Definition network_event (e : Event) : bool :=
  match e with
  | EvMint _ | EvConnect _ | EvProbe _ => true
  | _ => false
  end.

(** Every connect so far was made with a token of its own, obtained by an
    earlier call to the identity service. *)
Definition tokens_fresh (w : World) : Prop :=
  NoDup (connect_calls w) /\
  Forall (fun i => (i < auth_calls w)%nat) (connect_calls w).

(** From [w] to [w']: either nothing was asked of the identity service and
    nothing was connected, or one token was asked for and at most one
    connect was made, with that token. *)
Definition one_creation_at_most (w w' : World) : Prop :=
  (auth_calls w' = auth_calls w /\ connect_calls w' = connect_calls w) \/
  (auth_calls w' = Datatypes.S (auth_calls w) /\
   (connect_calls w' = connect_calls w \/
    connect_calls w' = connect_calls w ++ [auth_calls w])).

(** The exceptions that creating a connection can end in: those of the
    identity service and that of the transport. *)
Definition creation_error (e : exn) : Prop :=
  match e with
  | NoCredentialsError | ClientError _ _ | BotoError | ValueError
  | OperationalError => True
  | _ => False
  end.

(** ** class DSQLAuthenticator and the driver's connect

    The authenticator is the same class, word for word, in every file of the
    repository. *)

Section Services.

Variable E : Env.

(** [_get_dsql_client]: the client is built on first use and cached; a
    failure to build it is logged and re-raised. *)
Definition _get_dsql_client (n : nat) : M World unit :=
  fun w =>
    if dsql_client w then (Ok tt, w)
    else
      try_except
        (fun w =>
           if env_client E n
           then (Ok tt, mkWorld (now w) (heap w) true (auth_calls w)
                                (connect_calls w) (probes w) (trace w))
           else (Raise BotoError, w))
        (fun e => raise e)
        w.

(** The service call itself. *)
Definition generate_db_connect_admin_auth_token (n : nat) : M World string :=
  fun w =>
    let w' := log_event (EvMint n) w in
    match env_generate E n with
    | Generated t => (Ok t, w')
    | GenNoCredentials => (Raise NoCredentialsError, w')
    | GenClientError c m => (Raise (ClientError c m), w')
    | GenOther => (Raise BotoError, w')
    end.

(** [get_auth_token(cluster_identifier, expires)]: every [except] clause logs
    and re-raises. *)
Definition get_auth_token (expires : Z) : M World Token :=
  fun w =>
    let n := auth_calls w in
    let w0 := mkWorld (now w) (heap w) (dsql_client w) (Datatypes.S n)
                      (connect_calls w) (probes w) (trace w) in
    try_except
      (_get_dsql_client n ;;;
       token <~ generate_db_connect_admin_auth_token n ;;
       if String.eqb token "" then raise ValueError
       else ret (mkToken token expires n))
      (fun e =>
         match e with
         | NoCredentialsError => raise e
         | ClientError _ _ => raise e
         | _ => raise e
         end)
      w0.

(** [psycopg2.connect(..., password=token, sslmode='require')]: the attempt
    is recorded whether or not it succeeds; a success allocates a new
    connection object and returns its identity. *)
Definition psycopg2_connect (token : Token) : M World nat :=
  fun w =>
    let k := length (connect_calls w) in
    let tr := trace w ++ [EvConnect (mint_id token)] in
    let calls := connect_calls w ++ [mint_id token] in
    if env_connect E k
    then (Ok (length (heap w)),
          mkWorld (now w) (heap w ++ [mkPg token false]) (dsql_client w)
                  (auth_calls w) calls (probes w) tr)
    else (Raise OperationalError,
          mkWorld (now w) (heap w) (dsql_client w)
                  (auth_calls w) calls (probes w) tr).

(** [connection.close()] of the driver. *)
Definition pg_close (c : nat) : M World unit :=
  fun w => (Ok tt, log_event (EvClose c) (mark_closed c w)).

End Services.

(** ** connectionpooling_original.py *)

Module Original.

Section WithEnv.

Variable E : Env.

(** *** class DSQLConnectionWrapper *)

Record DSQLConnectionWrapper : Type := mkWrapper {
  connection : nat;      (* the wrapped connection object *)
  created_at : Z         (* datetime.now() at construction *)
}.

Definition DSQLConnectionWrapper_init (c : nat) : M World DSQLConnectionWrapper :=
  fun w => (Ok (mkWrapper c (now w)), w).

(** [with self.connection.cursor() as cur: cur.execute("SELECT 1")]. *)
Definition select_1 (c : nat) : M World unit :=
  fun w =>
    if env_probe E (probes w) c then (Ok tt, probed c w)
    else (Raise OperationalError, probed c w).

Definition is_healthy (self : DSQLConnectionWrapper) : M World bool :=
  try_except
    (fun w =>
       if is_closed w (connection self) then (Ok false, w)
       else (select_1 (connection self) ;;; ret true) w)
    (fun _ => ret false).

(** [close]: closes the connection unless it is closed already; nothing
    escapes. *)
Definition close (self : DSQLConnectionWrapper) : M World unit :=
  try_except
    (fun w =>
       if negb (is_closed w (connection self))
       then pg_close (connection self) w
       else (Ok tt, w))
    (fun _ => ret tt).

(** What [is_healthy] answers for connection [c] in world [w], and the
    worlds [is_healthy] and [close] leave behind. *)
Definition healthy_verdict (w : World) (c : nat) : bool :=
  negb (is_closed w c) && env_probe E (probes w) c.

Definition after_probe (w : World) (c : nat) : World :=
  if is_closed w c then w else probed c w.

Definition after_close (w : World) (c : nat) : World :=
  if is_closed w c then w else log_event (EvClose c) (mark_closed c w).

(** *** class DSQLCustomConnectionPool *)

Record DSQLCustomConnectionPool : Type := mkPool {
  minconn : Z;
  maxconn : Z;
  _pool : list DSQLConnectionWrapper;  (* queue.Queue(maxsize=maxconn), head first *)
  _current_connections : Z
}.

Definition Sys : Type := DSQLCustomConnectionPool * World.

Definition set_pool (q : list DSQLConnectionWrapper) (p : DSQLCustomConnectionPool) :=
  mkPool (minconn p) (maxconn p) q (_current_connections p).

Definition set_current (n : Z) (p : DSQLCustomConnectionPool) :=
  mkPool (minconn p) (maxconn p) (_pool p) n.

(** [queue.Queue.get(block=False)] on [self._pool]. *)
Definition pool_get_nowait : M Sys DSQLConnectionWrapper :=
  fun s =>
    match _pool (fst s) with
    | [] => (Raise QueueEmpty, s)
    | x :: q => (Ok x, (set_pool q (fst s), snd s))
    end.

(** [queue.Queue] is bounded only when [maxsize > 0]; it is then full when
    it holds [maxsize] items. *)
Definition queue_full (p : DSQLCustomConnectionPool) : bool :=
  bool_decide (0 < maxconn p) && bool_decide (maxconn p <= Z.of_nat (length (_pool p))).

(** [queue.Queue.put(item, block=False)] on [self._pool]. *)
Definition pool_put_nowait (x : DSQLConnectionWrapper) : M Sys unit :=
  fun s =>
    let p := fst s in
    if queue_full p
    then (Raise QueueFull, s)
    else (Ok tt, (set_pool (_pool p ++ [x]) p, snd s)).

Definition pool_empty : M Sys bool :=
  fun s => (Ok (bool_decide (_pool (fst s) = [])), s).

(** [with self._pool_lock: body]. *)
Definition with_pool_lock {A} (body : M Sys A) : M Sys A :=
  in_world (modify (log_event EvAcquire)) ;;;
  try_finally body (in_world (modify (log_event EvRelease))).

Definition add_current (d : Z) : M Sys unit :=
  modify (fun s => (set_current (_current_connections (fst s) + d) (fst s), snd s)).

Definition _create_connection : M Sys DSQLConnectionWrapper :=
  in_world
    (token <~ get_auth_token E 5 ;;
     c <~ psycopg2_connect E token ;;
     DSQLConnectionWrapper_init c).

(** The body of the loop of [_init_pool]: [except Exception] catches the
    failure of the creation and [queue.Full] alike. *)
Definition _init_pool_iteration (i : nat) : M Sys unit :=
  try_except
    (conn_wrapper <~ _create_connection ;;
     pool_put_nowait conn_wrapper ;;;
     add_current 1)
    (fun _ => ret tt).

Definition _init_pool : M Sys unit :=
  fun s => for_range (minconn (fst s)) _init_pool_iteration s.

(** [__init__]: the constructor stores its arguments, makes the queue and the
    counter, and pre-warms. *)
Definition DSQLCustomConnectionPool_init (minconn maxconn : Z) : M World DSQLCustomConnectionPool :=
  fun w =>
    match _init_pool (mkPool minconn maxconn [] 0, w) with
    | (Ok _, (p, w')) => (Ok p, w')
    | (Raise e, (p, w')) => (Raise e, w')
    end.

(** [get_connection].  Every path through the body of [while True] returns
    or raises, so the body runs once. *)
Definition get_connection : M Sys DSQLConnectionWrapper :=
  with_pool_lock
    (try_except
       (conn_wrapper <~ pool_get_nowait ;;
        healthy <~ in_world (is_healthy conn_wrapper) ;;
        if healthy then ret conn_wrapper
        else
          in_world (close conn_wrapper) ;;;
          new_conn_wrapper <~ _create_connection ;;
          ret new_conn_wrapper)
       (fun e =>
          match e with
          | QueueEmpty =>
              fun s =>
                if bool_decide (_current_connections (fst s) < maxconn (fst s))
                then (conn_wrapper <~ _create_connection ;;
                      add_current 1 ;;;
                      ret conn_wrapper) s
                else raise PoolLimitReached s
          | _ => raise e
          end)).

Definition put_connection (conn_wrapper : DSQLConnectionWrapper) : M Sys unit :=
  try_except
    (pool_put_nowait conn_wrapper)
    (fun e =>
       match e with
       | QueueFull =>
           in_world (close conn_wrapper) ;;;
           with_pool_lock (add_current (-1))
       | _ => raise e
       end).

(** [get_db_connection], the context manager, applied to the body of the
    [with] statement.  [conn_wrapper] is still [None] in the [finally]
    clause exactly when [get_connection] raised. *)
Definition get_db_connection {A} (work : nat -> M World A) : M Sys A :=
  fun s =>
    match get_connection s with
    | (Raise e, s1) => (Raise e, s1)
    | (Ok conn_wrapper, s1) =>
        try_finally
          (try_except (in_world (work (connection conn_wrapper)))
                      (fun e => raise e))
          (put_connection conn_wrapper)
          s1
    end.

(** [close_all]: the draining loop, then the counter is reset. [fuel] bounds
    the iterations of [while not self._pool.empty()]. *)
Fixpoint close_all_loop (fuel : nat) : M Sys unit :=
  match fuel with
  | O => ret tt
  | Datatypes.S fuel' =>
      empty <~ pool_empty ;;
      if empty then ret tt
      else
        continue <~ try_except
                      (conn_wrapper <~ pool_get_nowait ;;
                       in_world (close conn_wrapper) ;;;
                       ret true)
                      (fun e => match e with
                                | QueueEmpty => ret false
                                | _ => raise e
                                end) ;;
        if continue then close_all_loop fuel' else ret tt
  end.

Definition close_all : M Sys unit :=
  (fun s => close_all_loop (Datatypes.S (length (_pool (fst s)))) s) ;;;
  with_pool_lock
    (modify (fun s => (set_current 0 (fst s), snd s))).

(** The world after [close] has been called on each wrapper of [q], in
    order. *)
Definition after_close_each (q : list DSQLConnectionWrapper) (w : World) : World :=
  fold_left (fun w x => after_close w (connection x)) q w.

(** [get_pool_status], as the three numbers it formats: total, available,
    in use. *)
Definition get_pool_status (s : Sys) : Z * Z * Z :=
  let available_connections := Z.of_nat (length (_pool (fst s))) in
  let used_connections := _current_connections (fst s) - available_connections in
  (_current_connections (fst s), available_connections, used_connections).

(** *** The pool and its callers

    A [Machine] is the pool, the world, and the wrappers the callers hold:
    those [get_connection] has returned and that have not been given back. *)

Record Machine : Type := mkMachine {
  sys : Sys;
  outstanding : list DSQLConnectionWrapper
}.

Inductive Op : Type :=
  | OpGet                 (* a caller calls get_connection and keeps the result *)
  | OpPut (k : nat)       (* the holder of the k-th wrapper calls put_connection *)
  | OpCloseAll            (* close_all                                           *)
  | OpTick (d : N)        (* d units of time pass                                *)
  | OpSever (c : nat).    (* the transport reports connection c closed           *)

Definition tick (d : N) (w : World) : World :=
  mkWorld (now w + Z.of_N d) (heap w) (dsql_client w) (auth_calls w)
          (connect_calls w) (probes w) (trace w).

Definition step (op : Op) (st : Machine) : Machine :=
  match op with
  | OpGet =>
      match get_connection (sys st) with
      | (Ok x, s') => mkMachine s' (outstanding st ++ [x])
      | (Raise _, s') => mkMachine s' (outstanding st)
      end
  | OpPut k =>
      match outstanding st !! k with
      | Some x => mkMachine (snd (put_connection x (sys st))) (delete k (outstanding st))
      | None => st
      end
  | OpCloseAll => mkMachine (snd (close_all (sys st))) (outstanding st)
  | OpTick d => mkMachine (fst (sys st), tick d (snd (sys st))) (outstanding st)
  | OpSever c => mkMachine (fst (sys st), mark_closed c (snd (sys st))) (outstanding st)
  end.

Definition run (ops : list Op) (st : Machine) : Machine :=
  fold_left (fun st op => step op st) ops st.

(** A new pool in a new world: the state [__init__] leaves behind. *)
Definition boot (minconn maxconn : Z) : Machine :=
  mkMachine (snd (_init_pool (mkPool minconn maxconn [] 0, fresh_world))) [].

Definition idle_count (st : Machine) : Z :=
  Z.of_nat (length (_pool (fst (sys st)))).

Definition outstanding_count (st : Machine) : Z :=
  Z.of_nat (length (outstanding st)).

(** The idle and the checked-out connections together are at most as many as
    the pool counts, and the pool counts at most [mx]. *)
Definition within_limit (mx : Z) (st : Machine) : Prop :=
  maxconn (fst (sys st)) = mx /\
  idle_count st + outstanding_count st <= _current_connections (fst (sys st)) /\
  _current_connections (fst (sys st)) <= mx.

(** Every open connection is in the idle queue or in the hands of a
    caller. *)
Definition all_tracked (st : Machine) : Prop :=
  forall c, is_closed (snd (sys st)) c = false ->
            c ∈ map connection (_pool (fst (sys st)) ++ outstanding st).

(** [close_all] is only ever called while no caller holds a wrapper. *)
Fixpoint close_all_when_quiet (ops : list Op) (st : Machine) : bool :=
  match ops with
  | [] => true
  | op :: ops' =>
      match op, outstanding st with
      | OpCloseAll, _ :: _ => false
      | _, _ => close_all_when_quiet ops' (step op st)
      end
  end.

End WithEnv.

End Original.

(** ** psycopg2_connectionpooling.py *)

Module Psycopg2Variant.

Section WithEnv.

Variable E : Env.

(** *** psycopg2.pool.ThreadedConnectionPool

    The driver's own pool, as far as [DSQLPoolManager] relies on it: the
    constructor keeps the connection arguments it is given and opens
    [minconn] connections with them at once, [_connect] opens every later
    connection with the same kept arguments, and [closeall] closes whatever
    the pool holds. *)

Record ThreadedConnectionPool : Type := mkThreaded {
  tp_minconn : Z;
  tp_maxconn : Z;
  tp_password : Token;     (* self._kwargs['password'] *)
  tp_pool : list nat;      (* self._pool               *)
  tp_used : list nat;      (* self._used               *)
  tp_closed : bool         (* self.closed              *)
}.

Definition tp_connect : M (ThreadedConnectionPool * World) nat :=
  fun s =>
    let tp := fst s in
    match psycopg2_connect E (tp_password tp) (snd s) with
    | (Ok c, w') =>
        (Ok c, (mkThreaded (tp_minconn tp) (tp_maxconn tp) (tp_password tp)
                           (tp_pool tp ++ [c]) (tp_used tp) (tp_closed tp), w'))
    | (Raise e, w') => (Raise e, (tp, w'))
    end.

Definition ThreadedConnectionPool_init (minconn maxconn : Z) (token : Token)
  : M World ThreadedConnectionPool :=
  fun w =>
    match for_range minconn (fun _ => tp_connect ;;; ret tt)
                    (mkThreaded minconn maxconn token [] [] false, w) with
    | (Ok _, (tp, w')) => (Ok tp, w')
    | (Raise e, (_, w')) => (Raise e, w')
    end.

Fixpoint close_each (cs : list nat) : M World unit :=
  match cs with
  | [] => ret tt
  | c :: cs' => try_except (pg_close c) (fun _ => ret tt) ;;; close_each cs'
  end.

Definition closeall : M (ThreadedConnectionPool * World) unit :=
  fun s =>
    let tp := fst s in
    if tp_closed tp then (Raise PoolError, s)
    else
      match close_each (tp_pool tp ++ tp_used tp) (snd s) with
      | (r, w') =>
          (r, (mkThreaded (tp_minconn tp) (tp_maxconn tp) (tp_password tp)
                          (tp_pool tp) (tp_used tp) true, w'))
      end.

(** *** class DSQLPoolManager *)

Record DSQLPoolManager : Type := mkManager {
  minconn : Z;
  maxconn : Z;
  pool : option ThreadedConnectionPool
}.

(** [_init_pool]: the token is fetched before the [try]; the only [except]
    clause re-raises. *)
Definition _init_pool : M (DSQLPoolManager * World) unit :=
  token <~ in_world (get_auth_token E 120) ;;
  try_except
    (fun s =>
       let self := fst s in
       let closed_old :=
         match pool self with
         | Some tp =>
             match closeall (tp, snd s) with
             | (r, (_, w')) => (r, w')
             end
         | None => (Ok tt, snd s)
         end in
       match closed_old with
       | (Raise e, w') => (Raise e, (self, w'))
       | (Ok _, w') =>
           match ThreadedConnectionPool_init (minconn self) (maxconn self) token w' with
           | (Ok tp, w'') => (Ok tt, (mkManager (minconn self) (maxconn self) (Some tp), w''))
           | (Raise e, w'') => (Raise e, (self, w''))
           end
       end)
    (fun e => raise e).

(** [__init__]. *)
Definition DSQLPoolManager_init (minconn maxconn : Z) : M World DSQLPoolManager :=
  fun w =>
    match _init_pool (mkManager minconn maxconn None, w) with
    | (Ok _, (self, w')) => (Ok self, w')
    | (Raise e, (_, w')) => (Raise e, w')
    end.

Definition _create_single_connection : M World nat :=
  token <~ get_auth_token E 120 ;;
  psycopg2_connect E token.

End WithEnv.

End Psycopg2Variant.

(** *** DSQLPoolManager.get_db_connection and close_all

    [getconn], [putconn] and [closeall] are methods of the driver's pool;
    here they are parameters, and what is proved of the manager holds
    whatever they do. *)

Module Psycopg2Facade.

Import Psycopg2Variant.

Section WithDriver.

Variable E : Env.
Variable getconn : M (ThreadedConnectionPool * World) nat.
Variable putconn : nat -> bool -> M (ThreadedConnectionPool * World) unit.
Variable driver_closeall : M (ThreadedConnectionPool * World) unit.

(** [self.pool.putconn(connection, close=True)] followed by
    [connection = self._create_single_connection()]. *)
Definition replace_connection (c : nat) : M (ThreadedConnectionPool * World) nat :=
  putconn c true ;;; in_world (_create_single_connection E).

(** How the [try] block of [get_db_connection] gets to its [yield]: with the
    connection it yields, or with an exception and the value the local
    variable [connection] has when the exception is raised. *)
Inductive checkout : Type :=
  | Yield (c : nat)
  | Fail (connection : option nat) (e : exn).

Definition before_yield (s : ThreadedConnectionPool * World)
  : checkout * (ThreadedConnectionPool * World) :=
  match getconn s with
  | (Raise e, s1) => (Fail None e, s1)
  | (Ok c, s1) =>
      let closed_check :=
        if is_closed (snd s1) c
        then match replace_connection c s1 with
             | (Ok c', s2) => (Yield c', s2)
             | (Raise e, s2) => (Fail (Some c) e, s2)
             end
        else (Yield c, s1) in
      match closed_check with
      | (Yield c1, s2) =>
          match in_world (Original.select_1 E c1) s2 with
          | (Ok _, s3) => (Yield c1, s3)
          | (Raise _, s3) =>
              match replace_connection c1 s3 with
              | (Ok c2, s4) => (Yield c2, s4)
              | (Raise e, s4) => (Fail (Some c1) e, s4)
              end
          end
      | failed => failed
      end
  end.

(** The [finally] clause: [putconn], and if that raises, a plain close. *)
Definition release (connection : option nat) : M (ThreadedConnectionPool * World) unit :=
  match connection with
  | None => ret tt
  | Some c => try_except (putconn c false) (fun _ => in_world (pg_close c))
  end.

Definition get_db_connection {A} (work : nat -> M World A)
  : M (DSQLPoolManager * World) A :=
  fun s =>
    let self := fst s in
    match pool self with
    | None => (Raise PoolNotInitialized, s)
    | Some tp =>
        let run :=
          match before_yield (tp, snd s) with
          | (Fail connection e, s1) => try_finally (raise e) (release connection) s1
          | (Yield c, s1) =>
              try_finally
                (try_except (in_world (work c)) (fun e => raise e))
                (release (Some c))
                s1
          end in
        match run with
        | (r, (tp', w')) => (r, (mkManager (minconn self) (maxconn self) (Some tp'), w'))
        end
    end.

Definition close_all : M (DSQLPoolManager * World) unit :=
  fun s =>
    let self := fst s in
    match pool self with
    | None => (Ok tt, s)
    | Some tp =>
        match driver_closeall (tp, snd s) with
        | (Ok _, (_, w')) => (Ok tt, (mkManager (minconn self) (maxconn self) None, w'))
        | (Raise e, (tp', w')) =>
            (Raise e, (mkManager (minconn self) (maxconn self) (Some tp'), w'))
        end
    end.

End WithDriver.

End Psycopg2Facade.

(** ** class DSQLConnector and transaction_limit.main *)

Module Connector.

Section WithEnv.

Variable E : Env.

(** [connect], the context manager, applied to the body of the [with]
    statement.  [connection] is still [None] in the [finally] clause exactly
    when [psycopg2.connect] raised. *)
Definition connect {A} (token : Token) (work : nat -> M World A) : M World A :=
  fun w =>
    match psycopg2_connect E token w with
    | (Raise e, w1) => (Raise e, w1)
    | (Ok connection, w1) =>
        try_finally
          (try_except (work connection) (fun e => raise e))
          (pg_close connection)
          w1
    end.

(** [main]: [transaction] stands for the statements run on the connection.
    Both [except Exception] clauses only report. *)
Definition main (transaction : nat -> M World unit) : M World unit :=
  try_except
    (token <~ get_auth_token E 120 ;;
     try_except (connect token transaction) (fun _ => ret tt))
    (fun _ => ret tt).

End WithEnv.

End Connector.

(** ** dsql_sqlalchemy_pool.py: the do_connect handler *)

Module SQLAlchemyVariant.

Section WithEnv.

Variable E : Env.

(** [receive_do_connect(dialect, conn_rec, cargs, cparams)]: the state is the
    dictionary [cparams], which the handler updates in place, and the
    world.  The connection is opened with the token just stored. *)
Definition receive_do_connect : M (gmap string string * World) nat :=
  token <~ in_world (get_auth_token E 5) ;;
  modify (fun s => (<["password" := secret token]> (fst s), snd s)) ;;;
  in_world (psycopg2_connect E token).

(** The engine asks for connections one after the other, each time with a
    dictionary of its own. *)
Fixpoint do_connects (dicts : list (gmap string string)) (w : World) : World :=
  match dicts with
  | [] => w
  | cparams :: dicts' => do_connects dicts' (snd (snd (receive_do_connect (cparams, w))))
  end.

End WithEnv.

End SQLAlchemyVariant.

(** ** Vocabulary for the custom pool *)

(** The identity service and the transport answer every request. *)
Definition services_up (E : Env) : Prop :=
  (forall n, env_client E n = true) /\
  (forall n, exists t, env_generate E n = Generated t /\ t <> "") /\
  (forall n, env_connect E n = true).

(** The wrappers of [l] are of pairwise different connections, all among
    the first [n] connection objects. *)
Definition held_apart (n : nat) (l : list Original.DSQLConnectionWrapper) : Prop :=
  NoDup (map Original.connection l) /\
  Forall (fun c => (c < n)%nat) (map Original.connection l).

(** No connection is twice in the idle queue or in the callers' hands, and
    every wrapper there is of a connection that exists. *)
Definition no_sharing (st : Original.Machine) : Prop :=
  let held := map Original.connection
                (Original._pool (fst (Original.sys st)) ++ Original.outstanding st) in
  NoDup held /\
  Forall (fun c => (c < length (heap (snd (Original.sys st))))%nat) held.

(** * Properties *)

(** ** Effects of the services on the world *)

Lemma is_closed_log_event e w c : is_closed (log_event e w) c = is_closed w c.
Proof. reflexivity. Qed.

Lemma auth_calls_log_event e w : auth_calls (log_event e w) = auth_calls w.
Proof. reflexivity. Qed.

Lemma connect_calls_log_event e w : connect_calls (log_event e w) = connect_calls w.
Proof. reflexivity. Qed.

Lemma heap_log_event e w : heap (log_event e w) = heap w.
Proof. reflexivity. Qed.

Lemma is_closed_mark_closed w c : is_closed (mark_closed c w) c = true.
Proof.
  unfold is_closed, mark_closed; simpl.
  destruct (heap w !! c) as [o|] eqn:Hc; simpl.
  - rewrite list_lookup_insert_eq; [done|]. by eapply lookup_lt_Some.
  - by rewrite Hc.
Qed.

Lemma is_closed_mark_closed_ne w c d :
  c ≠ d -> is_closed (mark_closed c w) d = is_closed w d.
Proof.
  intros Hne. unfold is_closed, mark_closed; simpl.
  destruct (heap w !! c) as [o|]; [|done].
  by rewrite list_lookup_insert_ne.
Qed.

Lemma is_closed_mark_closed_mono w c d :
  is_closed w d = true -> is_closed (mark_closed c w) d = true.
Proof.
  intros H. destruct (decide (c = d)) as [->|Hne].
  - apply is_closed_mark_closed.
  - by rewrite is_closed_mark_closed_ne.
Qed.

Lemma length_heap_mark_closed w c : length (heap (mark_closed c w)) = length (heap w).
Proof.
  unfold mark_closed; simpl. destruct (heap w !! c); [|done].
  by rewrite length_insert.
Qed.

Section ServiceFacts.

Variable E : Env.

(** [get_auth_token] uses up one ordinal, opens nothing, and a token it
    returns carries the ordinal of this very call. *)
Lemma get_auth_token_effect ttl w :
  let r := get_auth_token E ttl w in
  now (snd r) = now w /\ heap (snd r) = heap w /\
  auth_calls (snd r) = Datatypes.S (auth_calls w) /\
  connect_calls (snd r) = connect_calls w /\
  probes (snd r) = probes w /\
  (exists evs, trace (snd r) = trace w ++ evs /\ Forall io_event evs) /\
  match fst r with
  | Ok tok => mint_id tok = auth_calls w /\ expires_in tok = ttl
  | Raise e => creation_error e
  end.
Proof.
  unfold get_auth_token, try_except, bind, _get_dsql_client, try_except,
    generate_db_connect_admin_auth_token, log_event, raise, ret; simpl.
  destruct (dsql_client w); simpl.
  - destruct (env_generate E (auth_calls w)) as [t| | |]; simpl;
      try destruct (String.eqb t ""); simpl;
      repeat split; try done;
      by (eexists; split; [reflexivity|repeat constructor]).
  - destruct (env_client E (auth_calls w)); simpl.
    + destruct (env_generate E (auth_calls w)) as [t| | |]; simpl;
        try destruct (String.eqb t ""); simpl;
        repeat split; try done;
        by (eexists; split; [reflexivity|repeat constructor]).
    + repeat split; try done.
      exists []. by rewrite app_nil_r.
Qed.

Lemma get_auth_token_returns_nonempty ttl w tok :
  fst (get_auth_token E ttl w) = Ok tok -> secret tok <> "".
Proof.
  unfold get_auth_token, try_except, bind, _get_dsql_client, try_except,
    generate_db_connect_admin_auth_token, log_event, raise, ret; simpl.
  destruct (dsql_client w); simpl; [|destruct (env_client E (auth_calls w)); simpl];
    try done;
    (destruct (env_generate E (auth_calls w)) as [t| | |]; simpl; try done;
     destruct (String.eqb t "") eqn:Ht; simpl; [done|];
     intros [= <-]; simpl; by apply String.eqb_neq).
Qed.

Lemma psycopg2_connect_effect tok w :
  let r := psycopg2_connect E tok w in
  now (snd r) = now w /\
  auth_calls (snd r) = auth_calls w /\
  connect_calls (snd r) = connect_calls w ++ [mint_id tok] /\
  probes (snd r) = probes w /\
  trace (snd r) = trace w ++ [EvConnect (mint_id tok)] /\
  match fst r with
  | Ok c => c = length (heap w) /\ heap (snd r) = heap w ++ [mkPg tok false]
  | Raise e => e = OperationalError /\ heap (snd r) = heap w
  end.
Proof.
  unfold psycopg2_connect; simpl.
  destruct (env_connect E (length (connect_calls w))); simpl; done.
Qed.

End ServiceFacts.

(** ** The custom pool: what each method does *)

Import Original.

Section PoolFacts.

Variable E : Env.

Lemma is_healthy_eq h w :
  is_healthy E h w =
    if is_closed w (connection h) then (Ok false, w)
    else (Ok (env_probe E (probes w) (connection h)), probed (connection h) w).
Proof.
  unfold is_healthy, try_except, select_1, bind, ret.
  destruct (is_closed w (connection h)); [done|].
  by destruct (env_probe E (probes w) (connection h)).
Qed.

Lemma close_eq h w :
  close h w =
    (Ok tt, if is_closed w (connection h) then w
            else log_event (EvClose (connection h)) (mark_closed (connection h) w)).
Proof.
  unfold close, try_except, pg_close.
  by destruct (is_closed w (connection h)).
Qed.

Lemma close_is_closed h w : is_closed (snd (close h w)) (connection h) = true.
Proof.
  rewrite close_eq; simpl.
  destruct (is_closed w (connection h)) eqn:Hc; [done|].
  rewrite is_closed_log_event. apply is_closed_mark_closed.
Qed.

(** [_create_connection]: one call to the identity service, at most one
    connect, made with the token of that call; the pool object is not
    touched. *)
Lemma _create_connection_effect p w :
  exists r w',
    _create_connection E (p, w) = (r, (p, w')) /\
    now w' = now w /\
    auth_calls w' = Datatypes.S (auth_calls w) /\
    probes w' = probes w /\
    (exists evs, trace w' = trace w ++ evs /\ Forall io_event evs) /\
    match r with
    | Ok x =>
        x = mkWrapper (length (heap w)) (now w) /\
        connect_calls w' = connect_calls w ++ [auth_calls w] /\
        exists tok, mint_id tok = auth_calls w /\ expires_in tok = 5 /\
                    heap w' = heap w ++ [mkPg tok false]
    | Raise e =>
        heap w' = heap w /\ creation_error e /\
        (connect_calls w' = connect_calls w \/
         connect_calls w' = connect_calls w ++ [auth_calls w])
    end.
Proof.
  unfold _create_connection, in_world, bind, DSQLConnectionWrapper_init; simpl.
  pose proof (get_auth_token_effect E 5 w) as Ha; simpl in Ha.
  destruct (get_auth_token E 5 w) as [[tok|e] w1]; simpl in Ha;
    destruct Ha as (Hn & Hh & Hc & Hcc & Hp & (ev1 & Ht & Hio) & Hr).
  - pose proof (psycopg2_connect_effect E tok w1) as Hb; simpl in Hb.
    destruct (psycopg2_connect E tok w1) as [[c|e] w2]; simpl in Hb;
      destruct Hb as (Hn2 & Hc2 & Hcc2 & Hp2 & Ht2 & Hr2).
    + destruct Hr as [Hid Httl]. destruct Hr2 as [-> Hh2].
      eexists _, _. split; [reflexivity|].
      repeat split; try congruence.
      * exists (ev1 ++ [EvConnect (mint_id tok)]).
        split; [by rewrite Ht2, Ht, app_assoc|].
        apply Forall_app; split; [done|]. by repeat constructor.
      * exists tok. repeat split; congruence.
    + destruct Hr as [Hid Httl]. destruct Hr2 as [-> Hh2].
      eexists _, _. split; [reflexivity|].
      repeat split; try congruence.
      * exists (ev1 ++ [EvConnect (mint_id tok)]).
        split; [by rewrite Ht2, Ht, app_assoc|].
        apply Forall_app; split; [done|]. by repeat constructor.
      * right. congruence.
  - eexists _, _. split; [reflexivity|].
    repeat split; try congruence; eauto.
Qed.

(** The health check never raises; its verdict does not depend on the
    trace, nor on [created_at]. *)
Lemma is_healthy_verdict h w : fst (is_healthy E h w) = Ok (healthy_verdict E w (connection h)).
Proof.
  rewrite is_healthy_eq. unfold healthy_verdict.
  by destruct (is_closed w (connection h)).
Qed.

Lemma is_healthy_world h w : snd (is_healthy E h w) = after_probe w (connection h).
Proof.
  rewrite is_healthy_eq. unfold after_probe.
  by destruct (is_closed w (connection h)).
Qed.

Lemma is_healthy_run h w :
  is_healthy E h w = (Ok (healthy_verdict E w (connection h)), after_probe w (connection h)).
Proof.
  rewrite <- is_healthy_verdict, <- is_healthy_world. by destruct (is_healthy E h w).
Qed.

Lemma close_run h w : close h w = (Ok tt, after_close w (connection h)).
Proof. apply close_eq. Qed.

(** The four ways through [get_connection]. *)

Lemma get_connection_healthy p w h q :
  _pool p = h :: q ->
  healthy_verdict E w (connection h) = true ->
  get_connection E (p, w) =
    (Ok h, (set_pool q p,
            log_event EvRelease (after_probe (log_event EvAcquire w) (connection h)))).
Proof.
  intros Hq Hv.
  unfold get_connection, with_pool_lock, try_finally, try_except, bind,
    pool_get_nowait, in_world, modify, ret; simpl.
  rewrite Hq; simpl. rewrite is_healthy_run.
  change (healthy_verdict E (log_event EvAcquire w) (connection h))
    with (healthy_verdict E w (connection h)).
  by rewrite Hv.
Qed.

Lemma get_connection_unhealthy p w h q :
  _pool p = h :: q ->
  healthy_verdict E w (connection h) = false ->
  get_connection E (p, w) =
    let w1 := after_close (after_probe (log_event EvAcquire w) (connection h))
                          (connection h) in
    match _create_connection E (set_pool q p, w1) with
    | (r, (p', w2)) => (r, (p', log_event EvRelease w2))
    end.
Proof.
  intros Hq Hv.
  unfold get_connection, with_pool_lock, try_finally, try_except, bind,
    pool_get_nowait, in_world at 1 2 3 4, modify, ret; simpl.
  rewrite Hq; simpl. rewrite is_healthy_run.
  change (healthy_verdict E (log_event EvAcquire w) (connection h))
    with (healthy_verdict E w (connection h)).
  rewrite Hv; simpl. rewrite close_run; simpl.
  destruct (_create_connection_effect (set_pool q p)
              (after_close (after_probe (log_event EvAcquire w) (connection h))
                           (connection h)))
    as (r & w2 & Heq & _ & _ & _ & _ & Hr).
  rewrite Heq. destruct r as [x|e]; simpl; [done|].
  destruct Hr as (_ & Hne & _). by destruct e.
Qed.

Lemma get_connection_grow p w :
  _pool p = [] ->
  _current_connections p < maxconn p ->
  get_connection E (p, w) =
    match _create_connection E (p, log_event EvAcquire w) with
    | (Ok x, (p', w2)) =>
        (Ok x, (set_current (_current_connections p' + 1) p', log_event EvRelease w2))
    | (Raise e, (p', w2)) => (Raise e, (p', log_event EvRelease w2))
    end.
Proof.
  intros Hq Hlt.
  unfold get_connection, with_pool_lock, try_finally, try_except, bind,
    pool_get_nowait, in_world at 1 2 3 4, modify, ret, add_current; simpl.
  rewrite Hq; simpl. rewrite bool_decide_true by done.
  by destruct (_create_connection E (p, log_event EvAcquire w)) as [[x|e] [p' w2]].
Qed.

Lemma get_connection_limit p w :
  _pool p = [] ->
  maxconn p <= _current_connections p ->
  get_connection E (p, w) =
    (Raise PoolLimitReached, (p, log_event EvRelease (log_event EvAcquire w))).
Proof.
  intros Hq Hge.
  unfold get_connection, with_pool_lock, try_finally, try_except, bind,
    pool_get_nowait, in_world, modify, ret, raise; simpl.
  rewrite Hq; simpl. by rewrite bool_decide_false by lia.
Qed.

Lemma put_connection_run x p w :
  put_connection x (p, w) =
    if queue_full p
    then (Ok tt, (set_current (_current_connections p + -1) p,
                  log_event EvRelease
                    (log_event EvAcquire (after_close w (connection x)))))
    else (Ok tt, (set_pool (_pool p ++ [x]) p, w)).
Proof.
  unfold put_connection, with_pool_lock, try_finally, try_except, bind,
    pool_put_nowait, in_world, modify, ret, add_current; simpl.
  destruct (queue_full p); [|done].
  by rewrite close_run.
Qed.

Lemma close_all_loop_run fuel : forall p w,
  (length (_pool p) < fuel)%nat ->
  close_all_loop fuel (p, w) =
    (Ok tt, (set_pool [] p, after_close_each (_pool p) w)).
Proof.
  induction fuel as [|fuel IH]; intros p w Hlen; [lia|].
  destruct p as [mn mx q cur]. simpl in Hlen.
  destruct q as [|x q]; [done|].
  simpl close_all_loop.
  unfold bind, pool_empty, try_except, pool_get_nowait, in_world, ret; simpl.
  rewrite close_run; simpl.
  change (mkPool mn mx q cur) with (set_pool q (mkPool mn mx (x :: q) cur)).
  rewrite IH by (simpl in *; lia). done.
Qed.

Lemma close_all_run p w :
  close_all (p, w) =
    (Ok tt, (set_current 0 (set_pool [] p),
             log_event EvRelease (log_event EvAcquire (after_close_each (_pool p) w)))).
Proof.
  unfold close_all, bind at 1. cbn [fst].
  rewrite close_all_loop_run by lia.
  done.
Qed.

Lemma is_closed_same_heap w w' c : heap w' = heap w -> is_closed w' c = is_closed w c.
Proof. unfold is_closed. by intros ->. Qed.

Lemma is_closed_after_close w c : is_closed (after_close w c) c = true.
Proof.
  unfold after_close. destruct (is_closed w c) eqn:Hc; [done|].
  rewrite is_closed_log_event. apply is_closed_mark_closed.
Qed.

Lemma length_heap_after_close w c : length (heap (after_close w c)) = length (heap w).
Proof.
  unfold after_close. destruct (is_closed w c); [done|].
  apply length_heap_mark_closed.
Qed.

Lemma is_closed_app w w' c o :
  heap w' = heap w ++ [o] -> (c < length (heap w))%nat ->
  is_closed w' c = is_closed w c.
Proof.
  intros Hh Hlt. unfold is_closed. rewrite Hh.
  by rewrite lookup_app_l.
Qed.

Lemma is_closed_true_app w w' c o :
  heap w' = heap w ++ [o] -> is_closed w c = true -> closed o = false ->
  is_closed w' c = true \/ c = length (heap w).
Proof.
  intros Hh Hc Ho.
  destruct (decide (c < length (heap w))%nat) as [Hlt|Hge].
  - left. by rewrite (is_closed_app w w' c o).
  - destruct (decide (c = length (heap w))) as [->|Hne]; [by right|].
    left. unfold is_closed. rewrite Hh.
    rewrite lookup_ge_None_2; [done|]. rewrite length_app; simpl. lia.
Qed.

Lemma after_probe_frame w c :
  now (after_probe w c) = now w /\ heap (after_probe w c) = heap w /\
  dsql_client (after_probe w c) = dsql_client w /\
  auth_calls (after_probe w c) = auth_calls w /\
  connect_calls (after_probe w c) = connect_calls w.
Proof. unfold after_probe. by destruct (is_closed w c). Qed.

Lemma after_close_frame w c :
  now (after_close w c) = now w /\
  dsql_client (after_close w c) = dsql_client w /\
  auth_calls (after_close w c) = auth_calls w /\
  connect_calls (after_close w c) = connect_calls w /\
  probes (after_close w c) = probes w.
Proof. unfold after_close. by destruct (is_closed w c). Qed.

Lemma is_closed_heap_lt w c : is_closed w c = false -> (c < length (heap w))%nat.
Proof.
  unfold is_closed. destruct (heap w !! c) eqn:Hc; [|done].
  intros _. by eapply lookup_lt_Some.
Qed.

End PoolFacts.

(** ** Acquiring at the limit, and acquiring that fails *)

Section Acquire.

Variable E : Env.

(** C6: when [get_connection] is called with the idle queue empty and
    [_current_connections] equal to [maxconn], it raises the pool-limit
    exception at once: the only things that happen are taking and releasing
    the lock; no token is asked for, no connection is opened, probed or
    closed, and the pool object is left exactly as it was. *)
Theorem C6_limit_fails_fast p w :
  _pool p = [] ->
  _current_connections p = maxconn p ->
  let r := get_connection E (p, w) in
  fst r = Raise PoolLimitReached /\
  fst (snd r) = p /\
  heap (snd (snd r)) = heap w /\
  auth_calls (snd (snd r)) = auth_calls w /\
  connect_calls (snd (snd r)) = connect_calls w /\
  probes (snd (snd r)) = probes w /\
  live_connections (snd (snd r)) = live_connections w /\
  trace (snd (snd r)) = trace w ++ [EvAcquire; EvRelease].
Proof.
  intros Hq Hcur r. subst r.
  rewrite get_connection_limit by (done || lia). simpl.
  repeat split. by rewrite <- app_assoc.
Qed.

(** C10: whenever [get_connection] raises, [_current_connections] has the
    value it had on entry.  If the idle queue was not empty, the raise comes
    from the replacement branch: the head of the queue was found unhealthy,
    has been taken out of the queue and is closed, and is still counted. *)
Theorem C10_raise_keeps_counter p w e :
  fst (get_connection E (p, w)) = Raise e ->
  let s' := snd (get_connection E (p, w)) in
  _current_connections (fst s') = _current_connections p /\
  forall h q, _pool p = h :: q ->
    healthy_verdict E w (connection h) = false /\
    _pool (fst s') = q /\
    is_closed (snd s') (connection h) = true.
Proof.
  intros Hr s'. subst s'.
  destruct (_pool p) as [|h q] eqn:Hq.
  - split; [|done].
    destruct (decide (_current_connections p < maxconn p)) as [Hlt|Hge].
    + rewrite get_connection_grow in * by done.
      destruct (_create_connection_effect E p (log_event EvAcquire w))
        as (r & w2 & Heq & _).
      rewrite Heq in *. by destruct r.
    + by rewrite get_connection_limit by (done || lia).
  - destruct (healthy_verdict E w (connection h)) eqn:Hv.
    + by rewrite (get_connection_healthy E p w h q) in Hr.
    + rewrite (get_connection_unhealthy E p w h q) in * by done.
      cbv zeta in *.
      destruct (_create_connection_effect E (set_pool q p)
                  (after_close (after_probe (log_event EvAcquire w) (connection h))
                               (connection h)))
        as (r & w2 & Heq & _ & _ & _ & _ & Hres).
      rewrite Heq in *. simpl in *. subst r.
      destruct Hres as (Hheap & _).
      split; [done|]. intros h' q' [= <- <-].
      repeat split; [done|].
      rewrite is_closed_log_event, (is_closed_same_heap _ _ _ Hheap).
      apply is_closed_after_close.
Qed.

End Acquire.

Lemma C6_limit_fails_fast_witness :
  let p := mkPool 0 1 [] 1 in
  _pool p = [] /\
  _current_connections p = maxconn p /\
  fst (get_connection env_up (p, fresh_world)) = Raise PoolLimitReached /\
  fst (snd (get_connection env_up (p, fresh_world))) = p.
Proof.
  cbv zeta. split; [reflexivity|]. split; [reflexivity|].
  destruct (C6_limit_fails_fast env_up (mkPool 0 1 [] 1) fresh_world
              eq_refl eq_refl) as (H1 & H2 & _).
  split; [exact H1|exact H2].
Defined.

Lemma C10_raise_keeps_counter_witness :
  let s := sys (run env_one_token [OpSever 0] (boot env_one_token 1 1)) in
  fst (get_connection env_one_token s) = Raise (ClientError "AccessDenied" "denied") /\
  _current_connections (fst s) = 1 /\
  _current_connections (fst (snd (get_connection env_one_token s))) = 1 /\
  _pool (fst (snd (get_connection env_one_token s))) = [].
Proof.
  cbv zeta. split; [reflexivity|]. split; [reflexivity|].
  destruct (C10_raise_keeps_counter env_one_token
              (fst (sys (run env_one_token [OpSever 0] (boot env_one_token 1 1))))
              (snd (sys (run env_one_token [OpSever 0] (boot env_one_token 1 1))))
              (ClientError "AccessDenied" "denied") eq_refl) as [H1 H2].
  split; [exact H1|].
  exact (proj1 (proj2 (H2 (mkWrapper 0 0) [] eq_refl))).
Defined.

(** ** Replacing an unhealthy connection *)

Section Replace.

Variable E : Env.

(** When the identity service and the transport both answer, the creation
    succeeds. *)
Lemma _create_connection_succeeds p w t :
  (dsql_client w = true \/ env_client E (auth_calls w) = true) ->
  env_generate E (auth_calls w) = Generated t ->
  t <> "" ->
  env_connect E (length (connect_calls w)) = true ->
  fst (_create_connection E (p, w)) = Ok (mkWrapper (length (heap w)) (now w)).
Proof.
  intros Hcl Hgen Ht Hconn.
  unfold _create_connection, in_world, bind, get_auth_token, try_except, bind,
    _get_dsql_client, try_except, generate_db_connect_admin_auth_token,
    psycopg2_connect, DSQLConnectionWrapper_init, ret, raise; simpl.
  assert (String.eqb t "" = false) as Heqb by by apply String.eqb_neq.
  destruct (dsql_client w) eqn:Hd; simpl.
  - rewrite Hgen; simpl. rewrite Heqb; simpl. by rewrite Hconn.
  - destruct Hcl as [Hcl|Hcl]; [done|]. rewrite Hcl; simpl.
    rewrite Hgen; simpl. rewrite Heqb; simpl. by rewrite Hconn.
Qed.

(** What one creation leaves in the trace: the round trip to the identity
    service, unless the client could not be built, and then the connect,
    unless no token came back.  A creation that succeeds leaves both, and
    nothing else in either case: no probe, no second round. *)
Lemma _create_connection_trace p w :
  let r := _create_connection E (p, w) in
  let n := auth_calls w in
  match fst r with
  | Ok _ => trace (snd (snd r)) = trace w ++ [EvMint n; EvConnect n]
  | Raise _ =>
      trace (snd (snd r)) = trace w \/
      trace (snd (snd r)) = trace w ++ [EvMint n] \/
      trace (snd (snd r)) = trace w ++ [EvMint n; EvConnect n]
  end.
Proof.
  unfold _create_connection, in_world, bind, get_auth_token, try_except, bind,
    _get_dsql_client, try_except, generate_db_connect_admin_auth_token,
    psycopg2_connect, DSQLConnectionWrapper_init, log_event, ret, raise; simpl.
  destruct (dsql_client w); simpl;
    [|destruct (env_client E (auth_calls w)); simpl; [|by left]];
    (destruct (env_generate E (auth_calls w)) as [t| | |]; simpl;
     [|by (right; left)..];
     destruct (String.eqb t ""); simpl; [by (right; left)|];
     destruct (env_connect E (length (connect_calls w))); simpl;
     rewrite <- ?app_assoc; simpl; [done|by (right; right)]).
Qed.

(** Checking and discarding the head of the queue: one probe and one close
    if the connection was open, neither if the driver reports it closed; no
    other connection is touched. *)
Lemma discard_effect w c :
  let w1 := after_close (after_probe (log_event EvAcquire w) c) c in
  probes w1 = (if is_closed w c then probes w else Datatypes.S (probes w)) /\
  trace w1 = trace w ++ [EvAcquire] ++
             (if is_closed w c then [] else [EvProbe c; EvClose c]) /\
  forall d, d <> c -> is_closed w1 d = is_closed w d.
Proof.
  cbv zeta. unfold after_probe. rewrite is_closed_log_event.
  destruct (is_closed w c) eqn:Hc.
  - unfold after_close. rewrite is_closed_log_event, Hc.
    repeat split; try done.
  - unfold after_close.
    assert (is_closed (probed c (log_event EvAcquire w)) c = false) as ->
      by exact Hc.
    split; [done|]. split.
    + unfold log_event, mark_closed, probed; simpl.
      by rewrite <- !app_assoc.
    + intros d Hd. rewrite is_closed_log_event.
      by rewrite is_closed_mark_closed_ne.
Qed.

(** C7, as the code has it: when the wrapper at the head of the idle queue
    fails its health check, [get_connection] closes it and makes exactly one
    attempt to replace it: one call to the identity service and at most one
    connect, never a second try.  The only probe of the call is the one of
    the head's check, so the replacement is not probed, and the trace of
    the call is: lock taken, the head probed and closed (nothing if the
    driver reported it closed), the one creation, lock released.  No other
    connection is closed.  The queue loses its head and
    [_current_connections] keeps its value.  What the caller gets is the
    outcome of that one creation.  If it succeeds the caller gets the new
    wrapper, whose connection is open and was created by this call, and the
    number of connections ever created has grown by exactly one; it does
    succeed when the identity service and the transport answer.  If it fails
    the caller gets its exception, one of the identity service or of the
    transport, and no connection has been created. *)
Theorem C7_unhealthy_replaced_once p w h q :
  _pool p = h :: q ->
  (connection h < length (heap w))%nat ->
  healthy_verdict E w (connection h) = false ->
  let r := get_connection E (p, w) in
  let p' := fst (snd r) in
  let w' := snd (snd r) in
  let n := auth_calls w in
  let checked :=
    if is_closed w (connection h) then []
    else [EvProbe (connection h); EvClose (connection h)] in
  is_closed w' (connection h) = true /\
  auth_calls w' = Datatypes.S (auth_calls w) /\
  (length (connect_calls w') <= Datatypes.S (length (connect_calls w)))%nat /\
  _pool p' = q /\
  _current_connections p' = _current_connections p /\
  probes w' =
    (if is_closed w (connection h) then probes w else Datatypes.S (probes w)) /\
  (exists evs,
     trace w' = trace w ++ [EvAcquire] ++ checked ++ evs ++ [EvRelease] /\
     (evs = [] \/ evs = [EvMint n] \/ evs = [EvMint n; EvConnect n])) /\
  (forall d, (d < length (heap w))%nat -> d <> connection h ->
             is_closed w' d = is_closed w d) /\
  fst r = fst (_create_connection E
                 (set_pool q p,
                  after_close (after_probe (log_event EvAcquire w) (connection h))
                              (connection h))) /\
  match fst r with
  | Ok x =>
      connection x = length (heap w) /\
      created_at x = now w /\
      is_closed w' (connection x) = false /\
      length (heap w') = Datatypes.S (length (heap w)) /\
      length (connect_calls w') = Datatypes.S (length (connect_calls w)) /\
      trace w' = trace w ++ [EvAcquire] ++ checked ++
                 [EvMint n; EvConnect n; EvRelease]
  | Raise e => creation_error e /\ length (heap w') = length (heap w)
  end /\
  forall t,
    (dsql_client w = true \/ env_client E (auth_calls w) = true) ->
    env_generate E (auth_calls w) = Generated t ->
    t <> "" ->
    env_connect E (length (connect_calls w)) = true ->
    fst r = Ok (mkWrapper (length (heap w)) (now w)).
Proof.
  intros Hq Hlt Hv r p' w' n checked. subst r p' w' n checked.
  rewrite (get_connection_unhealthy E p w h q) by done. cbv zeta.
  destruct (discard_effect w (connection h)) as (Hp1 & Ht1 & Hothers).
  set (w1 := after_close (after_probe (log_event EvAcquire w) (connection h))
                         (connection h)) in *.
  assert (length (heap w1) = length (heap w)) as Hlen.
  { unfold w1. rewrite length_heap_after_close. unfold after_probe.
    by destruct (is_closed (log_event EvAcquire w) (connection h)). }
  assert (auth_calls w1 = auth_calls w /\ connect_calls w1 = connect_calls w /\
          now w1 = now w /\ dsql_client w1 = dsql_client w) as (Ha & Hc & Hn & Hd).
  { unfold w1.
    destruct (after_close_frame
                (after_probe (log_event EvAcquire w) (connection h)) (connection h))
      as (-> & -> & -> & -> & _).
    destruct (after_probe_frame (log_event EvAcquire w) (connection h))
      as (-> & _ & -> & -> & ->).
    done. }
  assert (is_closed w1 (connection h) = true) as Hcl
    by apply is_closed_after_close.
  pose proof (_create_connection_succeeds (set_pool q p) w1) as Hsucc.
  pose proof (_create_connection_trace (set_pool q p) w1) as Htr.
  destruct (_create_connection_effect E (set_pool q p) w1)
    as (r & w2 & Heq & Hn2 & Ha2 & Hp2 & _ & Hres).
  rewrite Heq in *. cbn [fst snd] in *. rewrite Ha in Htr.
  destruct r as [x|e].
  - destruct Hres as (-> & Hcc & tok & _ & _ & Hheap). cbn [connection created_at].
    assert (trace (log_event EvRelease w2) =
            trace w ++ [EvAcquire] ++
              (if is_closed w (connection h) then []
               else [EvProbe (connection h); EvClose (connection h)]) ++
              [EvMint (auth_calls w); EvConnect (auth_calls w); EvRelease]) as Htrace.
    { unfold log_event; cbn [trace]. rewrite Htr, Ht1.
      rewrite <- !app_assoc. done. }
    split; [rewrite is_closed_log_event, (is_closed_app w1 w2 _ _ Hheap); [done|lia]|].
    split; [cbn [auth_calls log_event]; congruence|].
    split; [cbn [connect_calls log_event]; rewrite Hcc, length_app; simpl; rewrite Hc; lia|].
    split; [done|]. split; [done|].
    split; [cbn [probes log_event]; congruence|].
    split; [exists [EvMint (auth_calls w); EvConnect (auth_calls w)];
            split; [exact Htrace|by (right; right)]|].
    split; [intros d Hdlt Hdne; rewrite is_closed_log_event,
              (is_closed_app w1 w2 _ _ Hheap) by lia; by apply Hothers|].
    split; [done|].
    split.
    + split; [done|]. split; [congruence|].
      split; [rewrite is_closed_log_event; unfold is_closed; rewrite Hheap;
              by rewrite lookup_app_r, Hlen, Nat.sub_diag by lia|].
      split; [cbn [heap log_event]; rewrite Hheap, length_app; simpl; lia|].
      split; [cbn [connect_calls log_event]; rewrite Hcc, length_app; simpl; rewrite Hc; lia|].
      exact Htrace.
    + intros _ _ _ _ _. by rewrite Hlen, Hn.
  - destruct Hres as (Hheap & Herr & Hcc).
    split; [by rewrite is_closed_log_event, (is_closed_same_heap _ _ _ Hheap)|].
    split; [cbn [auth_calls log_event]; congruence|].
    split; [cbn [connect_calls log_event];
            destruct Hcc as [Hcc|Hcc]; rewrite Hcc, ?length_app, Hc; simpl; lia|].
    split; [done|]. split; [done|].
    split; [cbn [probes log_event]; congruence|].
    split.
    { unfold log_event; cbn [trace]. rewrite Ht1 in Htr.
      destruct Htr as [Htr|[Htr|Htr]]; rewrite Htr.
      - exists []. split; [by rewrite <- !app_assoc|by left].
      - exists [EvMint (auth_calls w)].
        split; [by rewrite <- !app_assoc|by (right; left)].
      - exists [EvMint (auth_calls w); EvConnect (auth_calls w)].
        split; [by rewrite <- !app_assoc|by (right; right)]. }
    split; [intros d Hdlt Hdne; rewrite is_closed_log_event,
              (is_closed_same_heap _ _ _ Hheap); by apply Hothers|].
    split; [done|].
    split; [split; [done|cbn [heap log_event]; congruence]|].
    intros t H1 H2 H3 H4.
    specialize (Hsucc t). rewrite Hd, Ha, Hc in Hsucc.
    discriminate (Hsucc H1 H2 H3 H4).
Qed.

End Replace.

(** C7 as the specification words it does not hold: the replacement can
    fail, and then the caller gets the exception instead of a connection.
    Here the only fault is the transport's: it has severed the only idle
    connection and still refuses the connect of the replacement, while the
    identity service answers. *)
Lemma C7_replacement_can_fail :
  let s := sys (run env_link_lost [OpSever 0] (boot env_link_lost 1 1)) in
  _pool (fst s) = [mkWrapper 0 0] /\
  healthy_verdict env_link_lost (snd s) 0 = false /\
  fst (get_connection env_link_lost s) = Raise OperationalError /\
  ~ (exists x, fst (get_connection env_link_lost s) = Ok x).
Proof.
  simpl. repeat split. intros [x Hx]. discriminate Hx.
Qed.

Lemma C7_unhealthy_replaced_once_witness :
  let s := sys (run env_up [OpSever 0] (boot env_up 1 1)) in
  _pool (fst s) = [mkWrapper 0 0] /\
  (0 < length (heap (snd s)))%nat /\
  healthy_verdict env_up (snd s) 0 = false /\
  fst (get_connection env_up s) = Ok (mkWrapper 1 0) /\
  _current_connections (fst (snd (get_connection env_up s))) = 1 /\
  probes (snd (snd (get_connection env_up s))) = probes (snd s).
Proof.
  cbv zeta.
  assert (0 < length (heap (snd (sys (run env_up [OpSever 0] (boot env_up 1 1))))))%nat
    as Hlt by (vm_compute; lia).
  split; [reflexivity|]. split; [exact Hlt|]. split; [reflexivity|].
  destruct (C7_unhealthy_replaced_once env_up
              (fst (sys (run env_up [OpSever 0] (boot env_up 1 1))))
              (snd (sys (run env_up [OpSever 0] (boot env_up 1 1))))
              (mkWrapper 0 0) [] eq_refl Hlt eq_refl)
    as (_ & _ & _ & _ & Hcur & Hprobes & _ & _ & _ & _ & Hok).
  split; [|split; [exact Hcur|exact Hprobes]].
  apply (Hok "token"); [by left|reflexivity|discriminate|reflexivity].
Defined.

(** ** Shutting down *)

Section Shutdown.

Variable E : Env.

Lemma is_closed_after_close_mono w c d :
  is_closed w d = true -> is_closed (after_close w c) d = true.
Proof.
  intros H. unfold after_close. destruct (is_closed w c); [done|].
  rewrite is_closed_log_event. by apply is_closed_mark_closed_mono.
Qed.

Lemma is_closed_after_close_each q : forall w d,
  is_closed w d = true \/ d ∈ map connection q ->
  is_closed (after_close_each q w) d = true.
Proof.
  induction q as [|x q IH]; intros w d Hd; simpl.
  - destruct Hd as [Hd|Hd]; [done|]. by apply elem_of_nil in Hd.
  - apply IH. destruct Hd as [Hd|Hd].
    + left. by apply is_closed_after_close_mono.
    + simpl in Hd. apply elem_of_cons in Hd as [->|Hd]; [|by right].
      left. apply is_closed_after_close.
Qed.

(** C2, as the code has it: [close_all] closes every idle connection,
    empties the idle queue and sets [_current_connections] to 0, and that is
    all: the pool keeps no record of having been shut down.  A later
    [get_connection] therefore finds an empty queue and a counter of 0.
    With [maxconn] at least 1 it goes on to create a connection, as on a new
    empty pool: it asks the identity service for one token, returns the new
    connection and counts it if the creation succeeds, and raises only the
    exception of a creation that failed.  With [maxconn] below 1 it raises
    the pool-limit exception. *)
Theorem C2_close_all_resets_the_pool p w :
  let s1 := snd (close_all (p, w)) in
  let r := get_connection E s1 in
  fst (close_all (p, w)) = Ok tt /\
  _pool (fst s1) = [] /\
  _current_connections (fst s1) = 0 /\
  (forall x, x ∈ _pool p -> is_closed (snd s1) (connection x) = true) /\
  (0 < maxconn p ->
     auth_calls (snd (snd r)) = Datatypes.S (auth_calls (snd s1)) /\
     match fst r with
     | Ok x =>
         _current_connections (fst (snd r)) = 1 /\
         connection x = length (heap (snd s1)) /\
         length (heap (snd (snd r))) = Datatypes.S (length (heap (snd s1))) /\
         is_closed (snd (snd r)) (connection x) = false
     | Raise e =>
         _current_connections (fst (snd r)) = 0 /\ creation_error e
     end) /\
  (maxconn p <= 0 -> fst r = Raise PoolLimitReached).
Proof.
  intros s1 r. subst s1 r. rewrite close_all_run. simpl fst. simpl snd.
  split; [done|]. split; [done|]. split; [done|]. split; [|split].
  - intros x Hx. rewrite !is_closed_log_event.
    apply is_closed_after_close_each. right. by apply list_elem_of_fmap_2.
  - intros Hmx.
    rewrite get_connection_grow by done.
    set (w1 := log_event EvAcquire _).
    destruct (_create_connection_effect E (set_current 0 (set_pool [] p)) w1)
      as (r & w2 & Heq & _ & Ha & _ & _ & Hres).
    rewrite Heq. destruct r as [x|e]; simpl.
    + destruct Hres as (-> & _ & tok & _ & _ & Hheap).
      repeat split; try done.
      * rewrite Hheap, length_app. simpl. unfold w1. simpl. lia.
      * rewrite is_closed_log_event. unfold is_closed. simpl connection.
        rewrite Hheap. unfold w1. simpl heap.
        by rewrite lookup_app_r, Nat.sub_diag by lia.
    + destruct Hres as (_ & Herr & _). done.
  - intros Hmx. by rewrite get_connection_limit by (simpl; done || lia).
Qed.

End Shutdown.

(** C2 as the specification words it does not hold: there is no closed
    state.  A pool that has been shut down hands out a newly created
    connection on the next [get_connection]. *)
Lemma C2_acquire_after_close_all_succeeds :
  let s1 := snd (close_all (sys (boot env_up 1 2))) in
  let r := get_connection env_up s1 in
  fst r = Ok (mkWrapper 1 0) /\
  length (heap (snd s1)) = 1%nat /\
  length (heap (snd (snd r))) = 2%nat /\
  ~ (exists e, fst r = Raise e).
Proof.
  simpl. repeat split. intros [e He]. discriminate He.
Qed.

(** ** The health check and the age of a connection *)

Section Age.

Variable E : Env.

(** C3, as the code has it: [is_healthy] looks at the [closed] attribute of
    the connection and at the outcome of [SELECT 1], and at nothing else.
    [created_at] is stamped when the wrapper is made and never read, and the
    pool has no setting for a maximal age.  So a wrapper gets the verdict of
    any other wrapper of the same connection, whatever their stamps, and an
    idle connection that is open and answers the probe is handed to the
    caller by [get_connection] however old it is. *)
Theorem C3_health_check_ignores_age p w h q :
  _pool p = h :: q ->
  is_closed w (connection h) = false ->
  env_probe E (probes w) (connection h) = true ->
  (forall stamp, is_healthy E (mkWrapper (connection h) stamp) w = is_healthy E h w) /\
  fst (is_healthy E h w) = Ok true /\
  fst (get_connection E (p, w)) = Ok h /\
  _pool (fst (snd (get_connection E (p, w)))) = q.
Proof.
  intros Hq Hc Hp.
  assert (healthy_verdict E w (connection h) = true) as Hv
    by (unfold healthy_verdict; by rewrite Hc, Hp).
  split; [done|]. split.
  - by rewrite is_healthy_verdict, Hv.
  - by rewrite (get_connection_healthy E p w h q).
Qed.

End Age.

(** C3 as the specification words it does not hold.  A connection made at
    time 0 is idle at time 1000000; for a maximal age of an hour it is far
    too old, yet the health check passes it and [get_connection] returns
    it. *)
Lemma C3_old_connection_is_handed_out :
  let st := run env_up [OpTick 1000000] (boot env_up 1 1) in
  let x := mkWrapper 0 0 in
  let max_age := 3600 in
  _pool (fst (sys st)) = [x] /\
  max_age <> 0 /\
  now (snd (sys st)) - created_at x > max_age /\
  fst (is_healthy env_up x (snd (sys st))) = Ok true /\
  fst (get_connection env_up (sys st)) = Ok x.
Proof.
  simpl. repeat split; done.
Qed.

Lemma C3_health_check_ignores_age_witness :
  let st := run env_up [OpTick 1000000] (boot env_up 1 1) in
  let x := mkWrapper 0 0 in
  _pool (fst (sys st)) = [x] /\
  is_closed (snd (sys st)) 0 = false /\
  env_probe env_up (probes (snd (sys st))) 0 = true /\
  fst (get_connection env_up (sys st)) = Ok x.
Proof.
  cbv zeta.
  split; [reflexivity|]. split; [reflexivity|]. split; [reflexivity|].
  exact (proj1 (proj2 (proj2
    (C3_health_check_ignores_age env_up
       (fst (sys (run env_up [OpTick 1000000] (boot env_up 1 1))))
       (snd (sys (run env_up [OpTick 1000000] (boot env_up 1 1))))
       (mkWrapper 0 0) [] eq_refl eq_refl eq_refl)))).
Defined.

(** ** Scoped checkout *)

Section Scoped.

Variable E : Env.

(** C4, as the code has it: [get_db_connection] releases the connection in
    its [finally] clause by the same [put_connection] whether the body of
    the [with] statement returned or raised; there is no flag for a
    connection that errored.  The outcome of the body is passed on to the
    caller.  If the idle queue has room the wrapper goes back into it, at
    the tail, and the release touches neither the world nor the counter: the
    connection is not closed.  Only if the queue is full is the connection
    closed and the counter lowered by one. *)
Theorem C4_release_is_the_same_after_an_error
    {A} (work : nat -> M World A) p w x p1 w1 :
  get_connection E (p, w) = (Ok x, (p1, w1)) ->
  let body := work (connection x) w1 in
  let r := get_db_connection E work (p, w) in
  fst r = fst body /\
  snd r = snd (put_connection x (p1, snd body)) /\
  (queue_full p1 = false ->
     fst (snd r) = set_pool (_pool p1 ++ [x]) p1 /\
     snd (snd r) = snd body) /\
  (queue_full p1 = true ->
     _pool (fst (snd r)) = _pool p1 /\
     _current_connections (fst (snd r)) = _current_connections p1 - 1 /\
     is_closed (snd (snd r)) (connection x) = true).
Proof.
  intros Hget body r. subst body r.
  unfold get_db_connection. rewrite Hget.
  unfold try_finally, try_except, in_world, raise. simpl.
  destruct (work (connection x) w1) as [[a|e] w2]; simpl;
    rewrite put_connection_run; destruct (queue_full p1); simpl;
    (repeat split; try done; try lia;
     rewrite !is_closed_log_event; apply is_closed_after_close).
Qed.

End Scoped.

(** C4 as the specification words it does not hold.  The body of the
    [with] statement raises; afterwards the connection it was using sits in
    the idle queue, open. *)
Lemma C4_errored_connection_returns_to_the_queue :
  let s := sys (boot env_up 0 1) in
  let r := get_db_connection env_up (fun _ => raise (A := unit) (WorkError 1)) s in
  fst (get_connection env_up s) = Ok (mkWrapper 0 0) /\
  fst r = Raise (WorkError 1) /\
  _pool (fst (snd r)) = [mkWrapper 0 0] /\
  is_closed (snd (snd r)) 0 = false.
Proof.
  simpl. repeat split; done.
Qed.

Lemma C4_release_is_the_same_after_an_error_witness :
  let s := sys (boot env_up 0 1) in
  let r := get_db_connection env_up (fun _ => raise (A := unit) (WorkError 1)) s in
  fst (get_connection env_up s) = Ok (mkWrapper 0 0) /\
  fst r = Raise (WorkError 1).
Proof.
  cbv zeta. split; [reflexivity|].
  exact (proj1
    (C4_release_is_the_same_after_an_error env_up
       (fun _ => raise (A := unit) (WorkError 1))
       (fst (sys (boot env_up 0 1))) (snd (sys (boot env_up 0 1)))
       (mkWrapper 0 0)
       (fst (snd (get_connection env_up (sys (boot env_up 0 1)))))
       (snd (snd (get_connection env_up (sys (boot env_up 0 1)))))
       eq_refl)).
Defined.

(** ** Construction and pre-warming *)

(** A loop invariant for [for i in range(n)] whose body never raises: the
    loop does not raise either and ends in the invariant. *)
Lemma for_range_from_bounded {S} (P : nat -> S -> Prop) (body : nat -> M S unit) n :
  forall i s,
    (forall j s, (i <= j < i + n)%nat -> P j s ->
                 fst (body j s) = Ok tt /\ P (Datatypes.S j) (snd (body j s))) ->
    P i s ->
    fst (for_range_from i n body s) = Ok tt /\
    P (i + n)%nat (snd (for_range_from i n body s)).
Proof.
  induction n as [|n IH]; intros i s Hbody HP; simpl.
  - by rewrite Nat.add_0_r.
  - unfold bind. destruct (Hbody i s ltac:(lia) HP) as [Hok HP'].
    destruct (body i s) as [[[]|e] s1]; simpl in *; [|done].
    rewrite Nat.add_succ_r. apply (IH (Datatypes.S i)); [|done].
    intros j s' Hj. apply Hbody. lia.
Qed.

Lemma for_range_from_invariant {S} (P : nat -> S -> Prop) (body : nat -> M S unit) n :
  (forall j s, P j s -> fst (body j s) = Ok tt /\ P (Datatypes.S j) (snd (body j s))) ->
  forall i s, P i s ->
    fst (for_range_from i n body s) = Ok tt /\
    P (i + n)%nat (snd (for_range_from i n body s)).
Proof.
  intros Hbody i s HP. apply for_range_from_bounded; [|done].
  intros j s' _. apply Hbody.
Qed.

Section Prewarm.

Variable E : Env.

(** One round of the pre-warming loop never raises.  Either the creation
    failed and nothing was opened, or a connection was opened and did not
    fit into the queue, or it was opened, queued and counted. *)
Lemma _init_pool_iteration_effect i p w :
  exists p' w',
    _init_pool_iteration E i (p, w) = (Ok tt, (p', w')) /\
    now w' = now w /\
    auth_calls w' = Datatypes.S (auth_calls w) /\
    (exists evs, trace w' = trace w ++ evs /\ Forall io_event evs) /\
    ((p' = p /\ heap w' = heap w /\
      (connect_calls w' = connect_calls w \/
       connect_calls w' = connect_calls w ++ [auth_calls w]))
     \/
     (p' = p /\ queue_full p = true /\
      connect_calls w' = connect_calls w ++ [auth_calls w] /\
      exists tok, heap w' = heap w ++ [mkPg tok false])
     \/
     (p' = set_current (_current_connections p + 1)
             (set_pool (_pool p ++ [mkWrapper (length (heap w)) (now w)]) p) /\
      queue_full p = false /\
      connect_calls w' = connect_calls w ++ [auth_calls w] /\
      exists tok, heap w' = heap w ++ [mkPg tok false])).
Proof.
  unfold _init_pool_iteration, try_except, bind.
  destruct (_create_connection_effect E p w)
    as (r & w' & Heq & Hn & Ha & _ & Htr & Hres).
  rewrite Heq. destruct r as [x|e].
  - destruct Hres as (-> & Hcc & tok & _ & _ & Hheap).
    unfold pool_put_nowait, add_current, modify, ret. simpl.
    destruct (queue_full p) eqn:Hfull; simpl.
    + exists p, w'. repeat split; try done. right; left. eauto.
    + eexists _, w'. repeat split; try done. right; right.
      repeat split; eauto.
  - destruct Hres as (Hheap & _ & Hcc).
    exists p, w'. unfold ret. repeat split; try done. by left.
Qed.


End Prewarm.

(** ** One token for each connect *)

Lemma tokens_fresh_advance w w' :
  one_creation_at_most w w' -> tokens_fresh w -> tokens_fresh w'.
Proof.
  intros [[Ha Hc]|[Ha [Hc|Hc]]] [Hnd Hlt]; unfold tokens_fresh;
    rewrite Ha, Hc; clear Ha Hc.
  - done.
  - split; [done|]. eapply Forall_impl; [exact Hlt|]. simpl. lia.
  - split.
    + apply NoDup_app. split; [done|]. split; [|apply NoDup_singleton].
      intros i Hi Hi'. apply list_elem_of_singleton in Hi' as ->.
      rewrite Forall_forall in Hlt. specialize (Hlt _ Hi). lia.
    + apply Forall_app. split.
      * eapply Forall_impl; [exact Hlt|]. simpl. lia.
      * apply Forall_singleton. lia.
Qed.

Section Tokens.

Variable E : Env.

Lemma after_close_each_frame q : forall w,
  now (after_close_each q w) = now w /\
  auth_calls (after_close_each q w) = auth_calls w /\
  connect_calls (after_close_each q w) = connect_calls w /\
  length (heap (after_close_each q w)) = length (heap w).
Proof.
  induction q as [|x q IH]; intros w; simpl; [done|].
  destruct (IH (after_close w (connection x))) as (-> & -> & -> & ->).
  destruct (after_close_frame w (connection x)) as (-> & _ & -> & -> & _).
  by rewrite length_heap_after_close.
Qed.

Lemma get_connection_one_creation p w :
  one_creation_at_most w (snd (snd (get_connection E (p, w)))).
Proof.
  destruct (_pool p) as [|h q] eqn:Hq.
  - destruct (decide (_current_connections p < maxconn p)) as [Hlt|Hge].
    + rewrite get_connection_grow by done.
      destruct (_create_connection_effect E p (log_event EvAcquire w))
        as (r & w2 & Heq & _ & Ha & _ & _ & Hres).
      rewrite Heq. right.
      destruct r as [x|e]; cbn [fst snd];
        rewrite auth_calls_log_event, connect_calls_log_event, Ha;
        (split; [done|]).
      * right. by destruct Hres as (_ & -> & _).
      * by destruct Hres as (_ & _ & Hcc).
    + rewrite get_connection_limit by (done || lia). by left.
  - destruct (healthy_verdict E w (connection h)) eqn:Hv.
    + rewrite (get_connection_healthy E p w h q) by done. left. cbn [fst snd].
      rewrite auth_calls_log_event, connect_calls_log_event.
      destruct (after_probe_frame (log_event EvAcquire w) (connection h))
        as (_ & _ & _ & -> & ->). done.
    + rewrite (get_connection_unhealthy E p w h q) by done. cbv zeta.
      set (w1 := after_close _ _).
      assert (auth_calls w1 = auth_calls w /\ connect_calls w1 = connect_calls w)
        as [Ha1 Hc1].
      { unfold w1.
        destruct (after_close_frame
                    (after_probe (log_event EvAcquire w) (connection h)) (connection h))
          as (_ & _ & -> & -> & _).
        destruct (after_probe_frame (log_event EvAcquire w) (connection h))
          as (_ & _ & _ & -> & ->). done. }
      destruct (_create_connection_effect E (set_pool q p) w1)
        as (r & w2 & Heq & _ & Ha & _ & _ & Hres).
      rewrite Heq. right. cbn [fst snd].
      rewrite auth_calls_log_event, connect_calls_log_event, Ha, Ha1.
      split; [done|].
      destruct r as [x|e].
      * right. destruct Hres as (_ & Hcc & _). by rewrite Hcc, Hc1, Ha1.
      * destruct Hres as (_ & _ & [Hcc|Hcc]); rewrite Hcc, Hc1, ?Ha1; auto.
Qed.

Lemma put_connection_no_creation x p w :
  one_creation_at_most w (snd (snd (put_connection x (p, w)))).
Proof.
  rewrite put_connection_run. left.
  destruct (queue_full p); simpl; [|done].
  by destruct (after_close_frame w (connection x)) as (_ & _ & -> & -> & _).
Qed.

Lemma close_all_no_creation p w :
  one_creation_at_most w (snd (snd (close_all (p, w)))).
Proof.
  rewrite close_all_run. left. simpl.
  by destruct (after_close_each_frame (_pool p) w) as (_ & -> & -> & _).
Qed.

Lemma step_tokens_fresh op st :
  tokens_fresh (snd (sys st)) -> tokens_fresh (snd (sys (step E op st))).
Proof.
  destruct st as [[p w] out]. simpl. intros Hf.
  destruct op as [|k| |d|c]; simpl.
  - pose proof (get_connection_one_creation p w) as Hadv.
    destruct (get_connection E (p, w)) as [[x|e] [p' w']]; simpl in *;
      by eapply tokens_fresh_advance.
  - destruct (out !! k) as [x|]; simpl; [|done].
    eapply tokens_fresh_advance; [apply put_connection_no_creation|done].
  - eapply tokens_fresh_advance; [apply close_all_no_creation|done].
  - done.
  - done.
Qed.

Lemma run_tokens_fresh ops : forall st,
  tokens_fresh (snd (sys st)) -> tokens_fresh (snd (sys (run E ops st))).
Proof.
  induction ops as [|op ops IH]; intros st Hf; simpl; [done|].
  apply IH. by apply step_tokens_fresh.
Qed.

Lemma boot_tokens_fresh mn mx : tokens_fresh (snd (sys (boot E mn mx))).
Proof.
  unfold boot, _init_pool, for_range. simpl.
  destruct (for_range_from_invariant
              (fun (_ : nat) (s : Sys) => tokens_fresh (snd s))
              (_init_pool_iteration E) (Z.to_nat mn))
    with (i := 0%nat) (s := (mkPool mn mx [] 0, fresh_world)) as [_ HP].
  - intros j [p w] Hf. simpl in Hf.
    destruct (_init_pool_iteration_effect E j p w)
      as (p' & w' & Heq & _ & Ha & _ & Hcases).
    rewrite Heq. simpl. split; [done|].
    eapply tokens_fresh_advance; [|exact Hf]. right. split; [done|].
    destruct Hcases as [(_ & _ & Hc)|[(_ & _ & Hc & _)|(_ & _ & Hc & _)]]; auto.
  - split; [apply NoDup_nil_2|apply Forall_nil_2].
  - exact HP.
Qed.

(** C5, for [DSQLCustomConnectionPool]: in every state the pool and its
    callers can reach, the connects made so far, pre-warming included and
    failed attempts included, were each made with the token of a different
    call to the identity service, and that call came before the connect.
    No token is used for two connects. *)
Theorem C5_each_connect_has_its_own_token mn mx ops :
  let w := snd (sys (run E ops (boot E mn mx))) in
  NoDup (connect_calls w) /\
  Forall (fun i => (i < auth_calls w)%nat) (connect_calls w).
Proof.
  apply run_tokens_fresh, boot_tokens_fresh.
Qed.

End Tokens.

(** C5 as the specification words it does not hold in the variant built on
    the driver's pool: [DSQLPoolManager._init_pool] asks for one token and
    hands it to [ThreadedConnectionPool], which opens all the pre-warmed
    connections with it. *)
Lemma C5_driver_pool_shares_one_token :
  let r := Psycopg2Variant.DSQLPoolManager_init env_up 2 5 fresh_world in
  is_ok (fst r) = true /\
  auth_calls (snd r) = 1%nat /\
  connect_calls (snd r) = [0%nat; 0%nat] /\
  ~ NoDup (connect_calls (snd r)).
Proof.
  simpl. repeat split.
  intros Hnd. apply NoDup_cons in Hnd as [Hnotin _].
  apply Hnotin. by left.
Qed.


(** ** The lock and the network *)

Lemma appends_io_refl w : appends_io w w.
Proof. exists []. by rewrite app_nil_r. Qed.

Lemma appends_io_trans w1 w2 w3 :
  appends_io w1 w2 -> appends_io w2 w3 -> appends_io w1 w3.
Proof.
  intros (e1 & H1 & F1) (e2 & H2 & F2). exists (e1 ++ e2). split.
  - by rewrite H2, H1, app_assoc.
  - by apply Forall_app.
Qed.

Lemma appends_io_after_probe w c : appends_io w (after_probe w c).
Proof.
  unfold after_probe. destruct (is_closed w c); [apply appends_io_refl|].
  exists [EvProbe c]. split; [done|]. by repeat constructor.
Qed.

Lemma appends_io_after_close w c : appends_io w (after_close w c).
Proof.
  unfold after_close. destruct (is_closed w c); [apply appends_io_refl|].
  exists [EvClose c]. split; [done|]. by repeat constructor.
Qed.

(** While the lock is held and is not touched, the trace is free of
    network traffic under the lock only if it has no network traffic. *)
Lemma io_outside_lock_held evs tl :
  Forall io_event evs ->
  io_outside_lock true (evs ++ tl) = true ->
  forallb (fun e => negb (network_event e)) evs = true.
Proof.
  induction evs as [|e evs IH]; intros Hio Hout; [done|].
  apply Forall_cons in Hio as [He Hio].
  destruct e; simpl in *; try done; by apply IH.
Qed.

Section Lock.

Variable E : Env.

(** C9, as the code has it: the whole body of [get_connection] runs inside
    [with self._pool_lock].  What a call adds to the trace is the
    acquisition of the lock, then the events of the probe, of the close and
    of the creation, then the release of the lock: every round trip of
    [get_connection] to the cluster or to the identity service is made while
    the lock is held.  The lock is free of network traffic only in the calls
    that make none. *)
Theorem C9_acquire_runs_inside_the_lock p w :
  exists evs,
    trace (snd (snd (get_connection E (p, w)))) =
      trace w ++ [EvAcquire] ++ evs ++ [EvRelease] /\
    Forall io_event evs /\
    (io_outside_lock false ([EvAcquire] ++ evs ++ [EvRelease]) = true ->
     forallb (fun e => negb (network_event e)) evs = true).
Proof.
  assert (exists w2, snd (snd (get_connection E (p, w))) = log_event EvRelease w2 /\
                     appends_io (log_event EvAcquire w) w2)
    as (w2 & Hw & evs & Htr & Hio).
  { destruct (_pool p) as [|h q] eqn:Hq.
    - destruct (decide (_current_connections p < maxconn p)) as [Hlt|Hge].
      + rewrite get_connection_grow by done.
        destruct (_create_connection_effect E p (log_event EvAcquire w))
          as (r & w2 & Heq & _ & _ & _ & Hev & _).
        rewrite Heq. exists w2. by destruct r.
      + rewrite get_connection_limit by (done || lia).
        eexists. split; [done|]. apply appends_io_refl.
    - destruct (healthy_verdict E w (connection h)) eqn:Hv.
      + rewrite (get_connection_healthy E p w h q) by done.
        eexists. split; [done|]. apply appends_io_after_probe.
      + rewrite (get_connection_unhealthy E p w h q) by done. cbv zeta.
        destruct (_create_connection_effect E (set_pool q p)
                    (after_close (after_probe (log_event EvAcquire w) (connection h))
                                 (connection h)))
          as (r & w2 & Heq & _ & _ & _ & Hev & _).
        rewrite Heq. exists w2. split; [done|].
        eapply appends_io_trans; [apply appends_io_after_probe|].
        eapply appends_io_trans; [apply appends_io_after_close|]. exact Hev. }
  exists evs. rewrite Hw. split; [|split; [done|]].
  - unfold log_event at 1. simpl trace. rewrite Htr. simpl.
    by rewrite <- !app_assoc.
  - simpl. intros Hout. by apply (io_outside_lock_held evs [EvRelease]).
Qed.

End Lock.

(** C9 as the specification words it does not hold: [get_connection] on an
    empty pool with room asks for the token and opens the connection
    between taking the lock and releasing it, and on a pre-warmed pool it
    probes the idle connection there. *)
Lemma C9_network_under_the_lock :
  let r0 := get_connection env_up (sys (boot env_up 0 1)) in
  let r1 := get_connection env_up (mkPool 1 1 [mkWrapper 0 0] 1,
                                   mkWorld 0 [mkPg (mkToken "token" 5 0) false]
                                           true 1 [0%nat] 0 []) in
  trace (snd (snd r0)) = [EvAcquire; EvMint 0; EvConnect 0; EvRelease] /\
  io_outside_lock false (trace (snd (snd r0))) = false /\
  trace (snd (snd r1)) = [EvAcquire; EvProbe 0; EvRelease] /\
  io_outside_lock false (trace (snd (snd r1))) = false.
Proof.
  by repeat split.
Qed.

(** ** The ceiling on connections *)

Section Ceiling.

Variable E : Env.

Lemma get_connection_keeps_maxconn p w :
  maxconn (fst (snd (get_connection E (p, w)))) = maxconn p.
Proof.
  destruct (_pool p) as [|h q] eqn:Hq.
  - destruct (decide (_current_connections p < maxconn p)) as [Hlt|Hge].
    + rewrite get_connection_grow by done.
      destruct (_create_connection_effect E p (log_event EvAcquire w))
        as (r & w2 & Heq & _).
      rewrite Heq. by destruct r.
    + by rewrite get_connection_limit by (done || lia).
  - destruct (healthy_verdict E w (connection h)) eqn:Hv.
    + by rewrite (get_connection_healthy E p w h q) by done.
    + rewrite (get_connection_unhealthy E p w h q) by done. cbv zeta.
      destruct (_create_connection_effect E (set_pool q p)
                  (after_close (after_probe (log_event EvAcquire w) (connection h))
                               (connection h)))
        as (r & w2 & Heq & _).
      by rewrite Heq.
Qed.

Lemma step_within_limit mx op st :
  0 < mx ->
  (op = OpCloseAll -> outstanding st = []) ->
  within_limit mx st -> within_limit mx (step E op st).
Proof.
  intros Hmx Hquiet. destruct st as [[p w] out]. simpl in Hquiet.
  unfold within_limit, idle_count, outstanding_count. simpl.
  intros (Hmax & Hsum & Hcur).
  destruct op as [|k| |d|c]; simpl.
  - (* get_connection *)
    destruct (_pool p) as [|h q] eqn:Hq.
    + destruct (decide (_current_connections p < maxconn p)) as [Hlt|Hge].
      * rewrite get_connection_grow by done.
        destruct (_create_connection_effect E p (log_event EvAcquire w))
          as (r & w2 & Heq & _).
        rewrite Heq. destruct r as [x|e]; simpl; rewrite ?Hq, ?length_app; simpl in *; lia.
      * rewrite get_connection_limit by (done || lia). simpl. rewrite Hq. simpl in *. lia.
    + destruct (healthy_verdict E w (connection h)) eqn:Hv.
      * rewrite (get_connection_healthy E p w h q) by done. simpl.
        rewrite length_app. simpl in *. lia.
      * rewrite (get_connection_unhealthy E p w h q) by done. cbv zeta.
        destruct (_create_connection_effect E (set_pool q p)
                    (after_close (after_probe (log_event EvAcquire w) (connection h))
                                 (connection h)))
          as (r & w2 & Heq & _).
        rewrite Heq. destruct r as [x|e]; simpl; rewrite ?length_app; simpl in *; lia.
  - (* put_connection *)
    destruct (out !! k) as [x|] eqn:Hk; simpl; [|done].
    assert (k < length out)%nat as Hlt by by eapply lookup_lt_Some.
    rewrite put_connection_run. unfold queue_full.
    destruct (bool_decide (0 < maxconn p) &&
              bool_decide (maxconn p <= Z.of_nat (length (_pool p)))) eqn:Hfull; simpl.
    + rewrite length_delete by eauto. lia.
    + rewrite length_app, length_delete by eauto. simpl.
      apply andb_false_iff in Hfull as [Hf|Hf];
        apply bool_decide_eq_false in Hf; lia.
  - (* close_all *)
    rewrite close_all_run. simpl. rewrite Hquiet by done. simpl. lia.
  - done.
  - done.
Qed.

Lemma run_within_limit mx ops : forall st,
  0 < mx ->
  close_all_when_quiet E ops st = true ->
  within_limit mx st -> within_limit mx (run E ops st).
Proof.
  induction ops as [|op ops IH]; intros st Hmx Hquiet Hinv; simpl; [done|].
  simpl in Hquiet.
  apply IH; [done| |].
  - destruct op; try done. by destruct (outstanding st).
  - apply step_within_limit; [done| |done].
    intros ->. by destruct (outstanding st).
Qed.

Lemma boot_within_limit mn mx : 0 < mx -> within_limit mx (boot E mn mx).
Proof.
  intros Hmx. unfold boot, _init_pool, for_range. simpl.
  destruct (for_range_from_invariant
              (fun (_ : nat) (s : Sys) =>
                 maxconn (fst s) = mx /\
                 _current_connections (fst s) = Z.of_nat (length (_pool (fst s))) /\
                 Z.of_nat (length (_pool (fst s))) <= mx)
              (_init_pool_iteration E) (Z.to_nat mn))
    with (i := 0%nat) (s := (mkPool mn mx [] 0, fresh_world)) as [_ HP].
  - intros j [p w] (H1 & H2 & H3). simpl in *.
    destruct (_init_pool_iteration_effect E j p w)
      as (p' & w' & Heq & _ & _ & _ & Hcases).
    rewrite Heq. simpl. split; [done|].
    destruct Hcases as [(-> & _)|[(-> & _)|(-> & Hfull & _)]]; try done.
    simpl. rewrite length_app. simpl. repeat split; try lia.
    unfold queue_full in Hfull.
    apply andb_false_iff in Hfull as [Hf|Hf];
      apply bool_decide_eq_false in Hf; lia.
  - simpl. lia.
  - unfold within_limit, idle_count, outstanding_count. simpl.
    destruct HP as (H1 & H2 & H3). lia.
Qed.

(** *** Open connections are all accounted for *)

Lemma is_closed_after_close_false w c d :
  is_closed (after_close w c) d = false -> d <> c /\ is_closed w d = false.
Proof.
  intros H. split.
  - intros ->. by rewrite is_closed_after_close in H.
  - destruct (is_closed w d) eqn:Hd; [|done].
    by rewrite is_closed_after_close_mono in H.
Qed.

Lemma is_closed_after_probe w c d : is_closed (after_probe w c) d = is_closed w d.
Proof.
  apply is_closed_same_heap. by destruct (after_probe_frame w c) as (_ & -> & _).
Qed.

Lemma is_closed_after_close_each_false q w d :
  is_closed (after_close_each q w) d = false ->
  is_closed w d = false /\ d ∉ map connection q.
Proof.
  intros H. split.
  - destruct (is_closed w d) eqn:Hd; [|done].
    rewrite is_closed_after_close_each in H; [done|by left].
  - intros Hin. rewrite is_closed_after_close_each in H; [done|by right].
Qed.

Lemma is_closed_mark_closed_false w c d :
  is_closed (mark_closed c w) d = false -> is_closed w d = false.
Proof.
  intros H. destruct (is_closed w d) eqn:Hd; [|done].
  by rewrite is_closed_mark_closed_mono in H.
Qed.

(** What is open after a creation was open before, or is the connection
    just created. *)
Lemma open_after_creation p w r w' c :
  _create_connection E (p, w) = (r, (p, w')) ->
  is_closed w' c = false ->
  is_closed w c = false \/ exists x, r = Ok x /\ connection x = c.
Proof.
  intros Heq Hc.
  destruct (_create_connection_effect E p w)
    as (r0 & w0 & Heq0 & _ & _ & _ & _ & Hres).
  rewrite Heq in Heq0. injection Heq0 as <- <-.
  destruct r as [x|e].
  - destruct Hres as (-> & _ & tok & _ & _ & Hheap).
    destruct (decide (c < length (heap w))%nat) as [Hlt|Hge].
    + left. by rewrite <- (is_closed_app w w' c _ Hheap Hlt).
    + right. eexists. split; [done|]. simpl.
      apply is_closed_heap_lt in Hc. rewrite Hheap, length_app in Hc.
      simpl in Hc. lia.
  - destruct Hres as (Hheap & _). left.
    by rewrite <- (is_closed_same_heap w w' c Hheap).
Qed.

Lemma elem_of_delete_lookup {A} (l : list A) k x y :
  l !! k = Some x -> y ∈ l -> y = x \/ y ∈ delete k l.
Proof.
  intros Hk Hy. rewrite <- (take_drop_middle l k x Hk) in Hy.
  rewrite delete_take_drop.
  apply elem_of_app in Hy as [Hy|Hy].
  - right. apply elem_of_app. by left.
  - apply elem_of_cons in Hy as [->|Hy]; [by left|].
    right. apply elem_of_app. by right.
Qed.

Lemma step_all_tracked op st :
  (op = OpCloseAll -> outstanding st = []) ->
  all_tracked st -> all_tracked (step E op st).
Proof.
  intros Hquiet. destruct st as [[p w] out]. simpl in Hquiet.
  unfold all_tracked. simpl. intros Htr.
  destruct op as [|k| |d|c0]; simpl.
  - (* get_connection *)
    destruct (_pool p) as [|h q] eqn:Hq.
    + destruct (decide (_current_connections p < maxconn p)) as [Hlt|Hge].
      * rewrite get_connection_grow by done.
        destruct (_create_connection_effect E p (log_event EvAcquire w))
          as (r & w2 & Heq & _).
        rewrite Heq.
        destruct r as [x|e]; simpl; rewrite Hq; simpl; intros c Hc;
          rewrite is_closed_log_event in Hc;
          destruct (open_after_creation _ _ _ _ c Heq Hc) as [Hold|(y & Hy & Hcy)];
          try done.
        -- rewrite map_app. apply elem_of_app. left. by apply Htr.
        -- injection Hy as <-. rewrite map_app. apply elem_of_app. right.
           simpl. rewrite Hcy. by left.
        -- by apply Htr.
      * rewrite get_connection_limit by (done || lia). simpl. rewrite Hq. done.
    + destruct (healthy_verdict E w (connection h)) eqn:Hv.
      * rewrite (get_connection_healthy E p w h q) by done. simpl.
        intros c Hc. rewrite is_closed_log_event, is_closed_after_probe in Hc.
        specialize (Htr c Hc). simpl in Htr.
        rewrite !map_app, app_assoc. simpl.
        apply elem_of_cons in Htr as [->|Htr].
        -- apply elem_of_app. right. by left.
        -- apply elem_of_app. left. by rewrite <- map_app.
      * rewrite (get_connection_unhealthy E p w h q) by done. cbv zeta.
        destruct (_create_connection_effect E (set_pool q p)
                    (after_close (after_probe (log_event EvAcquire w) (connection h))
                                 (connection h)))
          as (r & w2 & Heq & _).
        rewrite Heq.
        assert (forall c,
                  is_closed (after_close (after_probe (log_event EvAcquire w)
                                            (connection h)) (connection h)) c = false ->
                  c ∈ map connection (q ++ out)) as Hmid.
        { intros c Hc. apply is_closed_after_close_false in Hc as [Hne Hc].
          rewrite is_closed_after_probe in Hc.
          specialize (Htr c Hc). simpl in Htr.
          by apply elem_of_cons in Htr as [->|Htr]. }
        destruct r as [x|e]; simpl; intros c Hc;
          rewrite is_closed_log_event in Hc;
          destruct (open_after_creation _ _ _ _ c Heq Hc) as [Hold|(y & Hy & Hcy)];
          try done.
        -- rewrite app_assoc, map_app. apply elem_of_app. left. by apply Hmid.
        -- injection Hy as <-. rewrite app_assoc, map_app. apply elem_of_app.
           right. simpl. rewrite Hcy. by left.
        -- by apply Hmid.
  - (* put_connection *)
    destruct (out !! k) as [x|] eqn:Hk; simpl; [|done].
    rewrite put_connection_run.
    destruct (queue_full p); simpl; intros c Hc.
    + rewrite !is_closed_log_event in Hc.
      apply is_closed_after_close_false in Hc as [Hne Hc].
      specialize (Htr c Hc). rewrite map_app in *.
      apply elem_of_app in Htr as [Htr|Htr]; apply elem_of_app; [by left|right].
      apply list_elem_of_fmap in Htr as (y & -> & Hy).
      destruct (elem_of_delete_lookup out k x y Hk Hy) as [->|Hin]; [done|].
      by apply list_elem_of_fmap_2.
    + specialize (Htr c Hc). rewrite !map_app in *. simpl.
      apply elem_of_app in Htr as [Htr|Htr].
      * apply elem_of_app. left. apply elem_of_app. by left.
      * apply list_elem_of_fmap in Htr as (y & -> & Hy).
        destruct (elem_of_delete_lookup out k x y Hk Hy) as [->|Hin].
        -- apply elem_of_app. left. apply elem_of_app. right. by left.
        -- apply elem_of_app. right. by apply list_elem_of_fmap_2.
  - (* close_all *)
    rewrite close_all_run. simpl. rewrite Hquiet in * by done.
    intros c Hc. rewrite !is_closed_log_event in Hc.
    apply is_closed_after_close_each_false in Hc as [Hc Hnotin].
    specialize (Htr c Hc). by rewrite app_nil_r in Htr.
  - done.
  - intros c Hc. apply Htr. by eapply is_closed_mark_closed_false.
Qed.

Lemma run_all_tracked ops : forall st,
  close_all_when_quiet E ops st = true ->
  all_tracked st -> all_tracked (run E ops st).
Proof.
  induction ops as [|op ops IH]; intros st Hquiet Hinv; simpl; [done|].
  simpl in Hquiet.
  apply IH.
  - destruct op; try done. by destruct (outstanding st).
  - apply step_all_tracked; [|done].
    intros ->. by destruct (outstanding st).
Qed.

Lemma boot_all_tracked mn mx : mn <= mx -> all_tracked (boot E mn mx).
Proof.
  intros Hle. unfold boot, _init_pool, for_range. simpl.
  destruct (for_range_from_bounded
              (fun (i : nat) (s : Sys) =>
                 maxconn (fst s) = mx /\
                 (length (_pool (fst s)) <= i)%nat /\
                 forall c, is_closed (snd s) c = false ->
                           c ∈ map connection (_pool (fst s)))
              (_init_pool_iteration E) (Z.to_nat mn))
    with (i := 0%nat) (s := (mkPool mn mx [] 0, fresh_world)) as [_ HP].
  - intros j [p w] Hj (H1 & H2 & H3). simpl in *.
    destruct (_init_pool_iteration_effect E j p w)
      as (p' & w' & Heq & _ & _ & _ & Hcases).
    rewrite Heq. simpl. split; [done|].
    destruct Hcases as [(-> & Hh & _)|[(-> & Hfull & _)|(-> & _ & _ & tok & Hh)]].
    + repeat split; [done|lia|].
      intros c Hc. apply H3. by rewrite <- (is_closed_same_heap w w' c Hh).
    + unfold queue_full in Hfull. apply andb_true_iff in Hfull as [_ Hf].
      apply bool_decide_eq_true in Hf. lia.
    + simpl. rewrite length_app. simpl. repeat split; [done|lia|].
      intros c Hc. rewrite map_app. apply elem_of_app.
      destruct (decide (c < length (heap w))%nat) as [Hlt|Hge].
      * left. apply H3. by rewrite <- (is_closed_app w w' c _ Hh Hlt).
      * right. simpl. apply is_closed_heap_lt in Hc.
        rewrite Hh, length_app in Hc. simpl in Hc.
        replace c with (length (heap w)) by lia. by left.
  - simpl. repeat split; [lia|]. intros c Hc. done.
  - unfold all_tracked. simpl. destruct HP as (_ & _ & H3).
    intros c Hc. rewrite app_nil_r. by apply H3.
Qed.

Lemma live_connections_tracked st :
  all_tracked st ->
  (live_connections (snd (sys st))
   <= length (_pool (fst (sys st))) + length (outstanding st))%nat.
Proof.
  intros Htr. unfold live_connections.
  rewrite <- length_app, <- (length_map connection).
  apply submseteq_length, NoDup_submseteq.
  - apply NoDup_filter, NoDup_seq.
  - intros c Hc. apply Htr.
    unfold open_connections in Hc. by apply list_elem_of_filter in Hc as [Hc _].
Qed.

(** C1, as the code has it.  Take a pool with [maxconn] at least 1 and any
    run of [get_connection], of [put_connection] by the holder of a
    checked-out connection, of the clock and of the transport severing
    connections, in which [close_all] is called only while no connection is
    checked out.  In every state of such a run the idle connections and the
    checked-out ones together are at most [_current_connections], which is
    at most [maxconn].  If moreover [minconn] is at most [maxconn], every
    open connection is idle or checked out, so that the open connections are
    at most [maxconn] too. *)
Theorem C1_ceiling_while_close_all_is_quiet mn mx ops :
  0 < mx ->
  close_all_when_quiet E ops (boot E mn mx) = true ->
  let st := run E ops (boot E mn mx) in
  maxconn (fst (sys st)) = mx /\
  idle_count st + outstanding_count st <= _current_connections (fst (sys st)) /\
  _current_connections (fst (sys st)) <= mx /\
  idle_count st + outstanding_count st <= mx /\
  (mn <= mx -> Z.of_nat (live_connections (snd (sys st))) <= mx).
Proof.
  intros Hmx Hquiet st.
  pose proof (run_within_limit mx ops (boot E mn mx) Hmx Hquiet
                (boot_within_limit mn mx Hmx)) as (H1 & H2 & H3).
  fold st in H1, H2, H3.
  repeat split; try done; try lia.
  intros Hle.
  pose proof (live_connections_tracked st
                (run_all_tracked ops (boot E mn mx) Hquiet
                   (boot_all_tracked mn mx Hle))) as Hlive.
  unfold idle_count, outstanding_count in *. lia.
Qed.

End Ceiling.

(** C1 as the specification words it does not hold.  [close_all] sets the
    counter to 0 whatever the callers still hold: with [maxconn] 1, a caller
    checks out a connection, [close_all] runs, and the next
    [get_connection] creates a second connection.  Two connections are
    checked out, and open, under a ceiling of one. *)
Lemma C1_close_all_forgets_checked_out_connections :
  let st := run env_up [OpGet; OpCloseAll; OpGet] (boot env_up 0 1) in
  idle_count st = 0 /\
  outstanding_count st = 2 /\
  live_connections (snd (sys st)) = 2%nat /\
  maxconn (fst (sys st)) = 1 /\
  ~ (idle_count st + outstanding_count st <= maxconn (fst (sys st))).
Proof.
  vm_compute. repeat split. intros H. apply H. reflexivity.
Qed.

Lemma C1_ceiling_while_close_all_is_quiet_witness :
  let ops := [OpGet; OpPut 0%nat; OpCloseAll; OpGet; OpGet] in
  0 < 2 /\
  close_all_when_quiet env_up ops (boot env_up 1 2) = true /\
  idle_count (run env_up ops (boot env_up 1 2))
  + outstanding_count (run env_up ops (boot env_up 1 2)) <= 2.
Proof.
  cbv zeta.
  split; [lia|]. split; [reflexivity|].
  exact (proj1 (proj2 (proj2 (proj2
    (C1_ceiling_while_close_all_is_quiet env_up 1 2
       [OpGet; OpPut 0%nat; OpCloseAll; OpGet; OpGet] ltac:(lia) eq_refl))))).
Defined.

(** * Further properties *)

(** ** The authenticator *)

Section Authenticator.

Variable E : Env.

(** X1: a token that [get_auth_token] returns is the string the identity
    service generated in this very call, and it is not empty; it carries the
    validity asked for; the client is cached from then on, and the call made
    exactly one round trip. *)
Theorem get_auth_token_returns_what_was_generated ttl w tok :
  fst (get_auth_token E ttl w) = Ok tok ->
  env_generate E (auth_calls w) = Generated (secret tok) /\
  secret tok <> "" /\
  expires_in tok = ttl /\
  mint_id tok = auth_calls w /\
  dsql_client (snd (get_auth_token E ttl w)) = true /\
  trace (snd (get_auth_token E ttl w)) = trace w ++ [EvMint (auth_calls w)].
Proof.
  unfold get_auth_token, try_except, bind, _get_dsql_client, try_except,
    generate_db_connect_admin_auth_token, log_event, raise, ret; simpl.
  destruct (dsql_client w) eqn:Hd; simpl.
  - destruct (env_generate E (auth_calls w)) as [t| | |]; simpl; try done.
    destruct (String.eqb t "") eqn:Ht; simpl; [done|].
    intros [= <-]. simpl. repeat split; try done. by apply String.eqb_neq.
  - destruct (env_client E (auth_calls w)); simpl; [|done].
    destruct (env_generate E (auth_calls w)) as [t| | |]; simpl; try done.
    destruct (String.eqb t "") eqn:Ht; simpl; [done|].
    intros [= <-]. simpl. repeat split; try done. by apply String.eqb_neq.
Qed.

(** X2: an exception of [get_auth_token] is the failure it met, passed on
    as it is.  Either the client could not be built, and then the service
    was not contacted and the client is still missing, so that the next call
    tries again; or the service refused, and its exception comes out
    unchanged; or the service answered with an empty token, which becomes
    [ValueError].  In every case nothing was connected. *)
Theorem get_auth_token_raises_what_went_wrong ttl w e :
  fst (get_auth_token E ttl w) = Raise e ->
  let w' := snd (get_auth_token E ttl w) in
  heap w' = heap w /\ connect_calls w' = connect_calls w /\
  ((e = BotoError /\ dsql_client w = false /\ env_client E (auth_calls w) = false /\
    dsql_client w' = false /\ trace w' = trace w)
   \/
   ((dsql_client w = true \/ env_client E (auth_calls w) = true) /\
    trace w' = trace w ++ [EvMint (auth_calls w)] /\
    match env_generate E (auth_calls w) with
    | Generated t => t = "" /\ e = ValueError
    | GenNoCredentials => e = NoCredentialsError
    | GenClientError c m => e = ClientError c m
    | GenOther => e = BotoError
    end)).
Proof.
  unfold get_auth_token, try_except, bind, _get_dsql_client, try_except,
    generate_db_connect_admin_auth_token, log_event, raise, ret; simpl.
  destruct (dsql_client w) eqn:Hd; simpl.
  - destruct (env_generate E (auth_calls w)) as [t| | |]; simpl;
      try destruct (String.eqb t "") eqn:Ht; simpl; try done;
      intros [= <-]; repeat split; right; repeat split; auto.
    by apply String.eqb_eq.
  - destruct (env_client E (auth_calls w)) eqn:Hc; simpl.
    + destruct (env_generate E (auth_calls w)) as [t| | |]; simpl;
        try destruct (String.eqb t "") eqn:Ht; simpl; try done;
        intros [= <-]; repeat split; right; repeat split; auto.
      by apply String.eqb_eq.
    + intros [= <-]. repeat split. by left.
Qed.

End Authenticator.

Lemma get_auth_token_returns_what_was_generated_witness :
  fst (get_auth_token env_up 5 fresh_world) = Ok (mkToken "token" 5 0) /\
  dsql_client (snd (get_auth_token env_up 5 fresh_world)) = true.
Proof.
  split; [reflexivity|].
  exact (proj1 (proj2 (proj2 (proj2 (proj2
    (get_auth_token_returns_what_was_generated env_up 5 fresh_world
       (mkToken "token" 5 0) eq_refl)))))).
Defined.

Lemma get_auth_token_raises_what_went_wrong_witness :
  fst (get_auth_token env_auth_down 5 fresh_world)
    = Raise (ClientError "AccessDenied" "denied") /\
  connect_calls (snd (get_auth_token env_auth_down 5 fresh_world)) = [].
Proof.
  split; [reflexivity|].
  exact (proj1 (proj2
    (get_auth_token_raises_what_went_wrong env_auth_down 5 fresh_world
       (ClientError "AccessDenied" "denied") eq_refl))).
Defined.

(** ** The wrapper *)

Section Wrapper.

Variable E : Env.

(** X3: [close] never raises and closes no connection but its own; closing
    again changes nothing; and once closed, [is_healthy] answers [False]
    without sending a probe. *)
Theorem close_is_idempotent_and_final x w :
  let w1 := snd (close x w) in
  fst (close x w) = Ok tt /\
  is_closed w1 (connection x) = true /\
  (forall c, c <> connection x -> is_closed w1 c = is_closed w c) /\
  close x w1 = (Ok tt, w1) /\
  is_healthy E x w1 = (Ok false, w1).
Proof.
  cbv zeta. rewrite !close_run. simpl.
  assert (is_closed (after_close w (connection x)) (connection x) = true) as Hc
    by apply is_closed_after_close.
  repeat split.
  - done.
  - intros c Hne. unfold after_close.
    destruct (is_closed w (connection x)); [done|].
    rewrite is_closed_log_event. by apply is_closed_mark_closed_ne.
  - unfold after_close at 1. by rewrite Hc.
  - rewrite is_healthy_run. unfold healthy_verdict, after_probe. by rewrite Hc.
Qed.

End Wrapper.

(** ** Acquiring and releasing *)

Section AcquireRelease.

Variable E : Env.

(** X4: whatever [get_connection] returns is open when it is returned, be
    it an idle connection that passed the check or one just created. *)
Theorem get_connection_returns_an_open_connection p w x :
  fst (get_connection E (p, w)) = Ok x ->
  is_closed (snd (snd (get_connection E (p, w)))) (connection x) = false.
Proof.
  assert (forall p0 w0 w2 y,
            _create_connection E (p0, w0) = (Ok y, (p0, w2)) ->
            is_closed w2 (connection y) = false) as Hnew.
  { intros p0 w0 w2 y Heq.
    destruct (_create_connection_effect E p0 w0)
      as (r & w2' & Heq' & _ & _ & _ & _ & Hres).
    rewrite Heq in Heq'. injection Heq' as <- <-.
    destruct Hres as (-> & _ & tok & _ & _ & Hheap).
    unfold is_closed. simpl. rewrite Hheap.
    by rewrite lookup_app_r, Nat.sub_diag by lia. }
  destruct (_pool p) as [|h q] eqn:Hq.
  - destruct (decide (_current_connections p < maxconn p)) as [Hlt|Hge].
    + rewrite get_connection_grow by done.
      destruct (_create_connection_effect E p (log_event EvAcquire w))
        as (r & w2 & Heq & _).
      rewrite Heq. destruct r as [y|e]; simpl; [|done].
      intros [= ->]. rewrite is_closed_log_event. by eapply Hnew.
    + by rewrite get_connection_limit by (done || lia).
  - destruct (healthy_verdict E w (connection h)) eqn:Hv.
    + rewrite (get_connection_healthy E p w h q) by done. simpl.
      intros [= ->]. rewrite is_closed_log_event, is_closed_after_probe.
      unfold healthy_verdict in Hv. apply andb_true_iff in Hv as [Hv _].
      by apply negb_true_iff in Hv.
    + rewrite (get_connection_unhealthy E p w h q) by done. cbv zeta.
      destruct (_create_connection_effect E (set_pool q p)
                  (after_close (after_probe (log_event EvAcquire w) (connection h))
                               (connection h)))
        as (r & w2 & Heq & _).
      rewrite Heq. destruct r as [y|e]; simpl; [|done].
      intros [= ->]. rewrite is_closed_log_event. by eapply Hnew.
Qed.

(** X5: the idle queue is first in, first out.  After [put_connection]
    has queued [x], the next [get_connection] hands out the wrapper at the
    head of the queue, if it is healthy, and leaves the rest in order; on a
    queue that was empty this is [x] itself, and the pool object is then
    what it was before the release. *)
Theorem put_then_get_is_first_in_first_out p w x h q :
  queue_full p = false ->
  _pool p ++ [x] = h :: q ->
  healthy_verdict E w (connection h) = true ->
  let s1 := snd (put_connection x (p, w)) in
  fst (put_connection x (p, w)) = Ok tt /\
  fst (get_connection E s1) = Ok h /\
  fst (snd (get_connection E s1)) = set_pool q p /\
  (_pool p = [] -> h = x /\ fst (snd (get_connection E s1)) = p).
Proof.
  intros Hfull Hq Hv. cbv zeta. rewrite put_connection_run, Hfull. simpl.
  rewrite (get_connection_healthy E (set_pool (_pool p ++ [x]) p) w h q)
    by (simpl; done). simpl.
  split; [done|]. split; [done|]. split; [done|].
  intros Hp. rewrite Hp in Hq. injection Hq as <- <-.
  split; [done|]. destruct p; simpl in *. by subst.
Qed.

(** X6: a scoped checkout that finds a healthy connection at the head of a
    queue within its bound runs the body on that connection, hands the
    outcome of the body to the caller, and puts the connection back at the
    tail: the queue is rotated by one and the counter is untouched, whether
    the body returned or raised. *)
Theorem scoped_checkout_rotates_the_queue {A} (work : nat -> M World A) p w h q :
  _pool p = h :: q ->
  (0 < maxconn p -> Z.of_nat (length (_pool p)) <= maxconn p) ->
  healthy_verdict E w (connection h) = true ->
  let w1 := log_event EvRelease (after_probe (log_event EvAcquire w) (connection h)) in
  let r := get_db_connection E work (p, w) in
  r = (fst (work (connection h) w1),
       (set_pool (q ++ [h]) p, snd (work (connection h) w1))).
Proof.
  intros Hq Hbound Hv. cbv zeta.
  unfold get_db_connection.
  rewrite (get_connection_healthy E p w h q) by done.
  unfold try_finally, try_except, in_world, raise. simpl.
  assert (queue_full (set_pool q p) = false) as Hfull.
  { unfold queue_full. simpl. rewrite Hq in Hbound. simpl in Hbound.
    destruct (decide (0 < maxconn p)) as [Hpos|Hneg].
    - rewrite (bool_decide_false (maxconn p <= _)) by lia. apply andb_false_r.
    - by rewrite (bool_decide_false (0 < maxconn p)). }
  destruct (work (connection h) _) as [[a|e] w2]; simpl;
    rewrite put_connection_run, Hfull; simpl; done.
Qed.

(** X7: [close_all] twice is [close_all] once.  The second call never
    raises, finds nothing to close, and leaves the pool object and every
    connection as the first call left them; it only takes and releases the
    lock. *)
Theorem close_all_is_idempotent p w :
  let s1 := snd (close_all (p, w)) in
  fst (close_all s1) = Ok tt /\
  fst (snd (close_all s1)) = fst s1 /\
  heap (snd (snd (close_all s1))) = heap (snd s1) /\
  trace (snd (snd (close_all s1))) = trace (snd s1) ++ [EvAcquire; EvRelease].
Proof.
  cbv zeta. rewrite close_all_run. cbn [snd].
  rewrite close_all_run. simpl. repeat split.
  by rewrite <- !app_assoc.
Qed.

End AcquireRelease.

Lemma get_connection_returns_an_open_connection_witness :
  fst (get_connection env_up (sys (boot env_up 1 1))) = Ok (mkWrapper 0 0) /\
  is_closed (snd (snd (get_connection env_up (sys (boot env_up 1 1))))) 0 = false.
Proof.
  split; [reflexivity|].
  exact (get_connection_returns_an_open_connection env_up
           (fst (sys (boot env_up 1 1))) (snd (sys (boot env_up 1 1)))
           (mkWrapper 0 0) eq_refl).
Defined.

Lemma put_then_get_is_first_in_first_out_witness :
  let s := snd (get_connection env_up (sys (boot env_up 2 2))) in
  queue_full (fst s) = false /\
  _pool (fst s) ++ [mkWrapper 0 0] = [mkWrapper 1 0; mkWrapper 0 0] /\
  healthy_verdict env_up (snd s) 1 = true /\
  fst (get_connection env_up (snd (put_connection (mkWrapper 0 0) s)))
    = Ok (mkWrapper 1 0).
Proof.
  cbv zeta. split; [reflexivity|]. split; [reflexivity|]. split; [reflexivity|].
  exact (proj1 (proj2
    (put_then_get_is_first_in_first_out env_up
       (fst (snd (get_connection env_up (sys (boot env_up 2 2)))))
       (snd (snd (get_connection env_up (sys (boot env_up 2 2)))))
       (mkWrapper 0 0) (mkWrapper 1 0) [mkWrapper 0 0]
       eq_refl eq_refl eq_refl))).
Defined.

Lemma scoped_checkout_rotates_the_queue_witness :
  let s := sys (boot env_up 2 2) in
  _pool (fst s) = [mkWrapper 0 0; mkWrapper 1 0] /\
  (0 < maxconn (fst s) -> Z.of_nat (length (_pool (fst s))) <= maxconn (fst s)) /\
  healthy_verdict env_up (snd s) 0 = true /\
  _pool (fst (snd (get_db_connection env_up
                     (fun _ => raise (A := unit) (WorkError 7)) s)))
    = [mkWrapper 1 0; mkWrapper 0 0].
Proof.
  cbv zeta.
  assert (0 < maxconn (fst (sys (boot env_up 2 2))) ->
          Z.of_nat (length (_pool (fst (sys (boot env_up 2 2)))))
          <= maxconn (fst (sys (boot env_up 2 2)))) as Hb
    by (intros _; vm_compute; discriminate).
  split; [reflexivity|]. split; [exact Hb|]. split; [reflexivity|].
  exact (f_equal (fun r => _pool (fst (snd r)))
    (scoped_checkout_rotates_the_queue env_up
       (fun _ => raise (A := unit) (WorkError 7))
       (fst (sys (boot env_up 2 2))) (snd (sys (boot env_up 2 2)))
       (mkWrapper 0 0) [mkWrapper 1 0] eq_refl Hb eq_refl)).
Defined.

(** ** What holds in every run *)

Section EveryRun.

Variable E : Env.

Lemma step_queue_and_counter_bounded mx op st :
  0 < mx ->
  maxconn (fst (sys st)) = mx /\ idle_count st <= mx /\
    _current_connections (fst (sys st)) <= mx ->
  maxconn (fst (sys (step E op st))) = mx /\ idle_count (step E op st) <= mx /\
    _current_connections (fst (sys (step E op st))) <= mx.
Proof.
  intros Hmx. destruct st as [[p w] out]. unfold idle_count. simpl.
  intros (Hmax & Hidle & Hcur).
  destruct op as [|k| |d|c]; simpl.
  - destruct (_pool p) as [|h q] eqn:Hq.
    + destruct (decide (_current_connections p < maxconn p)) as [Hlt|Hge].
      * rewrite get_connection_grow by done.
        destruct (_create_connection_effect E p (log_event EvAcquire w))
          as (r & w2 & Heq & _).
        rewrite Heq. destruct r as [x|e]; simpl; rewrite ?Hq; simpl in *; lia.
      * rewrite get_connection_limit by (done || lia). simpl. rewrite Hq. simpl in *. lia.
    + destruct (healthy_verdict E w (connection h)) eqn:Hv.
      * rewrite (get_connection_healthy E p w h q) by done. simpl in *. lia.
      * rewrite (get_connection_unhealthy E p w h q) by done. cbv zeta.
        destruct (_create_connection_effect E (set_pool q p)
                    (after_close (after_probe (log_event EvAcquire w) (connection h))
                                 (connection h)))
          as (r & w2 & Heq & _).
        rewrite Heq. destruct r as [x|e]; simpl in *; lia.
  - destruct (out !! k) as [x|] eqn:Hk; simpl; [|done].
    rewrite put_connection_run. unfold queue_full.
    destruct (bool_decide (0 < maxconn p) &&
              bool_decide (maxconn p <= Z.of_nat (length (_pool p)))) eqn:Hfull; simpl.
    + lia.
    + rewrite length_app. simpl.
      apply andb_false_iff in Hfull as [Hf|Hf];
        apply bool_decide_eq_false in Hf; lia.
  - rewrite close_all_run. simpl. lia.
  - done.
  - done.
Qed.

(** X8: with [maxconn] at least 1, in every state the pool and its callers
    can reach, whenever [close_all] is called and whatever the services do,
    the idle queue holds at most [maxconn] wrappers and
    [_current_connections] is at most [maxconn]. *)
Theorem queue_and_counter_never_exceed_maxconn mn mx ops :
  0 < mx ->
  let st := run E ops (boot E mn mx) in
  maxconn (fst (sys st)) = mx /\
  idle_count st <= mx /\
  _current_connections (fst (sys st)) <= mx.
Proof.
  intros Hmx. cbv zeta.
  assert (forall st,
            maxconn (fst (sys st)) = mx /\ idle_count st <= mx /\
              _current_connections (fst (sys st)) <= mx ->
            maxconn (fst (sys (run E ops st))) = mx /\
              idle_count (run E ops st) <= mx /\
              _current_connections (fst (sys (run E ops st))) <= mx) as Hrun.
  { induction ops as [|op ops IH]; intros st Hst; simpl; [done|].
    apply IH. by apply step_queue_and_counter_bounded. }
  apply Hrun.
  destruct (boot_within_limit E mn mx Hmx) as (H1 & H2 & H3).
  unfold idle_count, outstanding_count in *. simpl in *. lia.
Qed.

(** X9: in every run in which [close_all] is called only while nothing is
    checked out, on a pool with [maxconn] at least 1, the three figures of
    [get_pool_status] are sound: the total is at most [maxconn], the
    available figure is the length of the idle queue, and the in-use figure
    is at least the number of connections the callers really hold. *)
Theorem get_pool_status_never_underreports mn mx ops :
  0 < mx ->
  close_all_when_quiet E ops (boot E mn mx) = true ->
  let st := run E ops (boot E mn mx) in
  let total := fst (fst (get_pool_status (sys st))) in
  let available := snd (fst (get_pool_status (sys st))) in
  let used := snd (get_pool_status (sys st)) in
  total <= mx /\
  available = idle_count st /\
  total = available + used /\
  outstanding_count st <= used.
Proof.
  intros Hmx Hquiet. cbv zeta.
  pose proof (run_within_limit E mx ops (boot E mn mx) Hmx Hquiet
                (boot_within_limit E mn mx Hmx)) as (H1 & H2 & H3).
  unfold get_pool_status, idle_count, outstanding_count in *. simpl. lia.
Qed.

End EveryRun.

Lemma queue_and_counter_never_exceed_maxconn_witness :
  let ops := [OpGet; OpCloseAll; OpGet; OpCloseAll; OpPut 0%nat; OpPut 0%nat] in
  0 < 1 /\
  idle_count (run env_up ops (boot env_up 0 1)) <= 1 /\
  _current_connections (fst (sys (run env_up ops (boot env_up 0 1)))) <= 1.
Proof.
  cbv zeta. split; [lia|].
  exact (proj2
    (queue_and_counter_never_exceed_maxconn env_up 0 1
       [OpGet; OpCloseAll; OpGet; OpCloseAll; OpPut 0%nat; OpPut 0%nat]
       ltac:(lia))).
Defined.

Lemma get_pool_status_never_underreports_witness :
  let ops := [OpGet; OpGet; OpPut 0%nat] in
  0 < 5 /\
  close_all_when_quiet env_up ops (boot env_up 3 5) = true /\
  outstanding_count (run env_up ops (boot env_up 3 5))
  <= snd (get_pool_status (sys (run env_up ops (boot env_up 3 5)))).
Proof.
  cbv zeta. split; [lia|]. split; [reflexivity|].
  exact (proj2 (proj2 (proj2
    (get_pool_status_never_underreports env_up 3 5
       [OpGet; OpGet; OpPut 0%nat] ltac:(lia) eq_refl)))).
Defined.

(** ** No connection has two holders *)

Section NoSharing.

Variable E : Env.

Local Lemma held_apart_sub n n' l l' :
  l' ⊆+ l -> (n <= n')%nat -> held_apart n l -> held_apart n' l'.
Proof.
  intros Hsub Hle [Hnd Hlt].
  apply (fmap_submseteq connection) in Hsub.
  apply submseteq_Permutation in Hsub as [k Hk].
  change (connection <$> l) with (map connection l) in Hk.
  change (connection <$> l') with (map connection l') in Hk.
  rewrite Hk in Hnd, Hlt.
  apply NoDup_app in Hnd as (Hnd & _ & _).
  apply Forall_app in Hlt as [Hlt _].
  split; [done|]. eapply Forall_impl; [exact Hlt|]. simpl. lia.
Qed.

Local Lemma held_apart_fresh n l x :
  connection x = n -> held_apart n l -> held_apart (Datatypes.S n) (l ++ [x]).
Proof.
  intros Hx [Hnd Hlt]. unfold held_apart. rewrite map_app. simpl. split.
  - apply NoDup_app. split; [done|]. split; [|apply NoDup_singleton].
    intros c Hc Hc'. apply list_elem_of_singleton in Hc' as ->.
    rewrite Forall_forall in Hlt. specialize (Hlt _ Hc). lia.
  - apply Forall_app. split.
    + eapply Forall_impl; [exact Hlt|]. simpl. lia.
    + apply Forall_singleton. lia.
Qed.

Local Lemma after_probe_heap w c : heap (after_probe w c) = heap w.
Proof. by destruct (after_probe_frame w c) as (_ & -> & _). Qed.

Local Lemma created_heap p w r w' :
  _create_connection E (p, w) = (r, (p, w')) ->
  match r with
  | Ok x => connection x = length (heap w) /\
            length (heap w') = Datatypes.S (length (heap w))
  | Raise _ => length (heap w') = length (heap w)
  end.
Proof.
  intros Heq.
  destruct (_create_connection_effect E p w)
    as (r0 & w0 & Heq0 & _ & _ & _ & _ & Hres).
  rewrite Heq in Heq0. injection Heq0 as <- <-.
  destruct r as [x|e].
  - destruct Hres as (-> & _ & tok & _ & _ & ->).
    rewrite length_app. simpl. split; [done|lia].
  - by destruct Hres as (-> & _).
Qed.

Lemma step_no_sharing op st : no_sharing st -> no_sharing (step E op st).
Proof.
  destruct st as [[p w] out]. unfold no_sharing. simpl.
  change (held_apart (length (heap w)) (_pool p ++ out) ->
          held_apart (length (heap (snd (sys (step E op (mkMachine (p, w) out))))))
               (_pool (fst (sys (step E op (mkMachine (p, w) out))))
                ++ outstanding (step E op (mkMachine (p, w) out)))).
  intros Hgood.
  destruct op as [|k| |d|c]; simpl.
  - (* get_connection *)
    destruct (_pool p) as [|h q] eqn:Hq.
    + destruct (decide (_current_connections p < maxconn p)) as [Hlt|Hge].
      * rewrite get_connection_grow by done.
        destruct (_create_connection_effect E p (log_event EvAcquire w))
          as (r & w2 & Heq & _).
        rewrite Heq. pose proof (created_heap _ _ _ _ Heq) as Hh.
        destruct r as [x|e]; simpl; rewrite Hq; simpl.
        -- destruct Hh as [Hx ->]. by apply held_apart_fresh.
        -- by rewrite Hh.
      * rewrite get_connection_limit by (done || lia). simpl. by rewrite Hq.
    + destruct (healthy_verdict E w (connection h)) eqn:Hv.
      * rewrite (get_connection_healthy E p w h q) by done. simpl.
        rewrite after_probe_heap. simpl.
        eapply held_apart_sub; [|reflexivity|exact Hgood].
        simpl. rewrite app_assoc.
        by rewrite (Permutation_app_comm (q ++ out) [h]).
      * rewrite (get_connection_unhealthy E p w h q) by done. cbv zeta.
        set (w1 := after_close _ _).
        assert (length (heap w1) = length (heap w)) as Hlen.
        { unfold w1. by rewrite length_heap_after_close, after_probe_heap. }
        assert (held_apart (length (heap w1)) (q ++ out)) as Hmid.
        { eapply held_apart_sub; [|by rewrite Hlen|exact Hgood].
          simpl. by apply submseteq_cons. }
        destruct (_create_connection_effect E (set_pool q p) w1)
          as (r & w2 & Heq & _).
        rewrite Heq. pose proof (created_heap _ _ _ _ Heq) as Hh.
        destruct r as [x|e]; simpl.
        -- destruct Hh as [Hx ->]. rewrite app_assoc. by apply held_apart_fresh.
        -- by rewrite Hh.
  - (* put_connection *)
    destruct (out !! k) as [x|] eqn:Hk; simpl; [|done].
    rewrite put_connection_run.
    destruct (queue_full p); simpl.
    + rewrite length_heap_after_close.
      eapply held_apart_sub; [|reflexivity|exact Hgood].
      apply submseteq_skips_l, submseteq_delete.
    + eapply held_apart_sub; [|reflexivity|exact Hgood].
      rewrite <- app_assoc. apply submseteq_skips_l. simpl.
      by rewrite <- (delete_Permutation out k x Hk).
  - (* close_all *)
    rewrite close_all_run. simpl.
    destruct (after_close_each_frame (_pool p) w) as (_ & _ & _ & ->).
    eapply held_apart_sub; [|reflexivity|exact Hgood].
    by apply submseteq_inserts_l.
  - done.
  - pose proof (length_heap_mark_closed w c) as Hl.
    unfold mark_closed in Hl. simpl in Hl. by rewrite Hl.
Qed.

Lemma boot_no_sharing mn mx : no_sharing (boot E mn mx).
Proof.
  unfold boot, _init_pool, for_range, no_sharing. simpl.
  destruct (for_range_from_invariant
              (fun (_ : nat) (s : Sys) => held_apart (length (heap (snd s))) (_pool (fst s)))
              (_init_pool_iteration E) (Z.to_nat mn))
    with (i := 0%nat) (s := (mkPool mn mx [] 0, fresh_world)) as [_ HP].
  - intros j [p w] Hgood. simpl in Hgood.
    destruct (_init_pool_iteration_effect E j p w)
      as (p' & w' & Heq & _ & _ & _ & Hcases).
    rewrite Heq. simpl. split; [done|].
    destruct Hcases as [(-> & -> & _)|[(-> & _ & _ & tok & ->)|(-> & _ & _ & tok & ->)]].
    + done.
    + eapply held_apart_sub; [reflexivity| |exact Hgood]. rewrite length_app. lia.
    + simpl. rewrite length_app. simpl. rewrite Nat.add_1_r.
      by apply held_apart_fresh.
  - split; [apply NoDup_nil_2|apply Forall_nil_2].
  - simpl in HP. by rewrite app_nil_r.
Qed.

(** X10: as long as callers give back only what they hold, no connection
    ever has two holders.  In every state the pool and its callers can
    reach, whenever [close_all] is called and whatever the services do, the
    wrappers in the idle queue and in the callers' hands are of pairwise
    different connections, each of which exists. *)
Theorem no_connection_has_two_holders mn mx ops :
  no_sharing (run E ops (boot E mn mx)).
Proof.
  assert (forall st, no_sharing st -> no_sharing (run E ops st)) as Hrun.
  { induction ops as [|op ops IH]; intros st Hst; simpl; [done|].
    apply IH. by apply step_no_sharing. }
  apply Hrun, boot_no_sharing.
Qed.

End NoSharing.

(** ** Pre-warming when the services answer *)

Lemma filter_all {A} (P : A -> Prop) `{forall x, Decision (P x)} (l : list A) :
  Forall P l -> filter P l = l.
Proof.
  induction 1 as [|x l Hx _ IH]; [done|].
  rewrite filter_cons_True by done. by rewrite IH.
Qed.

Section PrewarmUp.

Variable E : Env.
Hypothesis Hup : services_up E.

Lemma _create_connection_up p w :
  exists tok w',
    _create_connection E (p, w) = (Ok (mkWrapper (length (heap w)) (now w)), (p, w')) /\
    heap w' = heap w ++ [mkPg tok false].
Proof.
  destruct Hup as (Hclient & Hgen & Hconn).
  destruct (Hgen (auth_calls w)) as (t & Ht & Hne).
  pose proof (_create_connection_succeeds E p w t
                (or_intror (Hclient _)) Ht Hne (Hconn _)) as Hok.
  destruct (_create_connection_effect E p w)
    as (r & w' & Heq & _ & _ & _ & _ & Hres).
  rewrite Heq in Hok. simpl in Hok. subst r.
  destruct Hres as (_ & _ & tok & _ & _ & Hheap).
  exists tok, w'. by rewrite Heq.
Qed.

(** X11: when the identity service and the transport answer every request,
    the constructor of a pool with [maxconn] at least 1 opens [minconn]
    connections, one per round, all open afterwards.  It queues and counts
    the first [maxconn] of them at most, in the order they were opened: the
    idle queue holds [min(minconn, maxconn)] wrappers.  With [minconn]
    above [maxconn] the connections that did not fit stay open, outside the
    queue and outside the count. *)
Theorem prewarm_when_services_answer mn mx :
  0 < mx ->
  exists p w',
    DSQLCustomConnectionPool_init E mn mx fresh_world = (Ok p, w') /\
    map connection (_pool p) = seq 0 (Z.to_nat (Z.min mn mx)) /\
    _current_connections p = Z.of_nat (length (_pool p)) /\
    length (heap w') = Z.to_nat mn /\
    live_connections w' = Z.to_nat mn.
Proof.
  intros Hmx.
  unfold DSQLCustomConnectionPool_init, _init_pool, for_range. simpl.
  pose (P := fun (i : nat) (s : Sys) =>
    maxconn (fst s) = mx /\
    map connection (_pool (fst s)) = seq 0 (i `min` Z.to_nat mx) /\
    _current_connections (fst s) = Z.of_nat (length (_pool (fst s))) /\
    length (heap (snd s)) = i /\
    forall c, (c < i)%nat -> is_closed (snd s) c = false).
  destruct (for_range_from_invariant P (_init_pool_iteration E) (Z.to_nat mn))
    with (i := 0%nat) (s := (mkPool mn mx [] 0, fresh_world)) as [Hok HP].
  - intros j [p w] (H1 & H2 & H3 & H4 & H5). simpl in *.
    destruct (_create_connection_up p w) as (tok & w' & Heq & Hheap).
    assert (length (_pool p) = (j `min` Z.to_nat mx)%nat) as Hlen
      by (by rewrite <- (length_map connection), H2, length_seq).
    assert (forall c, (c < Datatypes.S j)%nat -> is_closed w' c = false) as Hopen.
    { intros c Hc. destruct (decide (c < j)%nat) as [Hlt|Hge].
      - rewrite (is_closed_app w w' c _ Hheap) by lia. by apply H5.
      - assert (c = length (heap w)) as -> by lia.
        unfold is_closed. rewrite Hheap.
        by rewrite lookup_app_r, Nat.sub_diag by lia. }
    unfold _init_pool_iteration, try_except, bind. rewrite Heq.
    unfold pool_put_nowait, add_current, modify, ret, queue_full. simpl.
    rewrite (bool_decide_true (0 < maxconn p)) by lia. simpl.
    destruct (bool_decide (maxconn p <= Z.of_nat (length (_pool p)))) eqn:Hfull; simpl.
    + apply bool_decide_eq_true in Hfull. split; [done|].
      unfold P. cbn [fst snd]. rewrite Hheap, length_app. cbn [length].
      split; [done|]. split; [|split; [done|split; [lia|done]]].
      rewrite H2. f_equal. lia.
    + apply bool_decide_eq_false in Hfull. split; [done|].
      unfold P. cbn [fst snd set_current set_pool maxconn _pool _current_connections].
      rewrite Hheap, !length_app. cbn [length].
      split; [done|]. split; [|split; [lia|split; [lia|done]]].
      rewrite map_app, H2. cbn [map connection].
      replace (j `min` Z.to_nat mx)%nat with j by lia.
      replace (Datatypes.S j `min` Z.to_nat mx)%nat with (Datatypes.S j) by lia.
      rewrite seq_S. cbn [Nat.add]. do 2 f_equal. lia.
  - unfold P. simpl. repeat split; try done. intros c Hc. lia.
  - destruct (for_range_from 0 (Z.to_nat mn) (_init_pool_iteration E)
                (mkPool mn mx [] 0, fresh_world)) as [[[]|e] [p' w']];
      cbn [fst snd] in *; [|done].
    destruct HP as (H1 & H2 & H3 & H4 & H5). cbn [fst snd Nat.add] in *.
    exists p', w'. split; [done|]. split; [|split; [done|split; [done|]]].
    + rewrite H2. f_equal. lia.
    + unfold live_connections, open_connections.
      rewrite filter_all, length_seq; [done|].
      apply Forall_seq. intros c Hc. apply H5. lia.
Qed.

End PrewarmUp.

Lemma env_up_services_up : services_up env_up.
Proof.
  repeat split. intros n. exists "token". by split.
Qed.

Lemma prewarm_when_services_answer_witness :
  services_up env_up /\ 0 < 2 /\
  exists p w',
    DSQLCustomConnectionPool_init env_up 3 2 fresh_world = (Ok p, w') /\
    length (_pool p) = 2%nat /\ live_connections w' = 3%nat.
Proof.
  split; [exact env_up_services_up|]. split; [lia|].
  destruct (prewarm_when_services_answer env_up env_up_services_up 3 2 ltac:(lia))
    as (p & w' & Heq & Hq & _ & _ & Hlive).
  exists p, w'. split; [exact Heq|]. split; [|exact Hlive].
  rewrite <- (length_map connection), Hq. reflexivity.
Defined.

(** ** DSQLConnector and main *)

Lemma filter_ext_in {A} (P1 P2 : A -> Prop)
    `{!forall x, Decision (P1 x), !forall x, Decision (P2 x)} (l : list A) :
  (forall x, x ∈ l -> P1 x <-> P2 x) -> filter P1 l = filter P2 l.
Proof.
  induction l as [|a l IH]; intros Hiff; [done|].
  assert (forall x, x ∈ l -> P1 x <-> P2 x) as Hl
    by (intros x Hx; apply Hiff; by right).
  destruct (decide (P1 a)) as [Ha|Ha].
  - rewrite !filter_cons_True; [by rewrite IH|by apply Hiff; [left|]|done].
  - rewrite !filter_cons_False; [by apply IH| |done].
    intros Ha2. apply Ha, Hiff; [by left|done].
Qed.

Lemma is_closed_pg_close w c : is_closed (snd (pg_close c w)) c = true.
Proof. unfold pg_close. simpl. apply is_closed_mark_closed. Qed.

Lemma is_closed_pg_close_ne w c d :
  c <> d -> is_closed (snd (pg_close c w)) d = is_closed w d.
Proof. intros Hne. unfold pg_close. simpl. by apply is_closed_mark_closed_ne. Qed.

Lemma length_heap_pg_close w c :
  length (heap (snd (pg_close c w))) = length (heap w).
Proof. unfold pg_close. simpl. apply length_heap_mark_closed. Qed.

(** The open connections are counted the same in two worlds that agree on
    which of the existing connections are closed; a connection that is
    added closed does not count. *)
Lemma live_connections_same w w' :
  length (heap w') = length (heap w) ->
  (forall c, (c < length (heap w))%nat -> is_closed w' c = is_closed w c) ->
  live_connections w' = live_connections w.
Proof.
  intros Hlen Hsame. unfold live_connections, open_connections.
  rewrite Hlen. f_equal. apply filter_ext_in.
  intros c Hc. apply elem_of_seq in Hc. rewrite Hsame by lia. done.
Qed.

Lemma live_connections_closed_last w w' :
  length (heap w') = Datatypes.S (length (heap w)) ->
  (forall c, (c < length (heap w))%nat -> is_closed w' c = is_closed w c) ->
  is_closed w' (length (heap w)) = true ->
  live_connections w' = live_connections w.
Proof.
  intros Hlen Hsame Hlast. unfold live_connections, open_connections.
  rewrite Hlen, seq_S, filter_app. simpl.
  rewrite filter_cons_False, filter_nil, app_nil_r by (by rewrite Hlast).
  f_equal. apply filter_ext_in.
  intros c Hc. apply elem_of_seq in Hc. rewrite Hsame by lia. done.
Qed.

Section ConnectorFacts.

Variable E : Env.

Lemma connect_run {A} token (work : nat -> M World A) w :
  Connector.connect E token work w =
    match psycopg2_connect E token w with
    | (Raise e, w1) => (Raise e, w1)
    | (Ok c, w1) => (fst (work c w1), snd (pg_close c (snd (work c w1))))
    end.
Proof.
  unfold Connector.connect, try_finally, try_except, raise, pg_close.
  destruct (psycopg2_connect E token w) as [[c|e] w1]; [|done].
  by destruct (work c w1) as [[a|e] w2].
Qed.

Lemma connect_keeps_live {A} token (work : nat -> M World A) w :
  (forall c w0, heap (snd (work c w0)) = heap w0) ->
  live_connections (snd (Connector.connect E token work w)) = live_connections w.
Proof.
  intros Hwork. rewrite connect_run.
  pose proof (psycopg2_connect_effect E token w) as Hc. cbv zeta in Hc.
  destruct (psycopg2_connect E token w) as [[c|e] w1]; cbn [fst snd] in *.
  - destruct Hc as (_ & _ & _ & _ & _ & -> & Hheap).
    assert (heap (snd (work (length (heap w)) w1)) = heap w ++ [mkPg token false])
      as Hh by (by rewrite Hwork).
    apply live_connections_closed_last.
    + rewrite length_heap_pg_close, Hh, length_app. simpl. lia.
    + intros c Hlt. rewrite is_closed_pg_close_ne by lia.
      unfold is_closed. rewrite Hh. by rewrite lookup_app_l.
    + apply is_closed_pg_close.
  - destruct Hc as (_ & _ & _ & _ & _ & _ & Hheap).
    apply live_connections_same; [by rewrite Hheap|].
    intros c _. by apply is_closed_same_heap.
Qed.

(** X12: [DSQLConnector.connect] closes the connection it opened on every
    way out of the body of the [with] statement, and hands the outcome of
    the body to the caller.  If the connect itself fails the body is not run
    and the failure is raised.  When the body neither opens nor closes
    connections, there are as many open connections afterwards as
    before. *)
Theorem connector_closes_on_every_way_out {A} token (work : nat -> M World A) w :
  let r := Connector.connect E token work w in
  match psycopg2_connect E token w with
  | (Raise e, w1) => r = (Raise e, w1)
  | (Ok c, w1) => fst r = fst (work c w1) /\ is_closed (snd r) c = true
  end /\
  ((forall c w0, heap (snd (work c w0)) = heap w0) ->
   live_connections (snd r) = live_connections w).
Proof.
  cbv zeta. split; [|apply connect_keeps_live].
  rewrite connect_run.
  destruct (psycopg2_connect E token w) as [[c|e] w1]; [|done].
  split; [done|]. apply is_closed_pg_close.
Qed.

Lemma main_run (transaction : nat -> M World unit) w :
  Connector.main E transaction w =
    match get_auth_token E 120 w with
    | (Ok token, w1) => (Ok tt, snd (Connector.connect E token transaction w1))
    | (Raise _, w1) => (Ok tt, w1)
    end.
Proof.
  unfold Connector.main, try_except, bind, ret.
  destruct (get_auth_token E 120 w) as [[tok|e] w1]; [|done].
  by destruct (Connector.connect E tok transaction w1) as [[[]|e] w2].
Qed.

(** X13: [main] of transaction_limit.py never raises, whatever the
    identity service, the transport and the transaction do: both of its
    [except] clauses only report.  When the transaction neither opens nor
    closes connections, [main] leaves as many connections open as it
    found. *)
Theorem main_never_raises_and_leaves_nothing_open (transaction : nat -> M World unit) w :
  fst (Connector.main E transaction w) = Ok tt /\
  ((forall c w0, heap (snd (transaction c w0)) = heap w0) ->
   live_connections (snd (Connector.main E transaction w)) = live_connections w).
Proof.
  rewrite main_run.
  pose proof (get_auth_token_effect E 120 w) as Ha. cbv zeta in Ha.
  destruct (get_auth_token E 120 w) as [[tok|e] w1]; cbn [fst snd] in *;
    destruct Ha as (_ & Hheap & _); (split; [done|]); intros Hwork.
  - rewrite (connect_keeps_live tok transaction w1 Hwork).
    apply live_connections_same; [by rewrite Hheap|].
    intros c _. by apply is_closed_same_heap.
  - apply live_connections_same; [by rewrite Hheap|].
    intros c _. by apply is_closed_same_heap.
Qed.

End ConnectorFacts.

Lemma connector_closes_on_every_way_out_witness :
  (forall (c : nat) w0, heap (snd (raise (A := unit) (WorkError 1) w0)) = heap w0) /\
  live_connections
    (snd (Connector.connect env_up (mkToken "token" 120 0)
            (fun _ => raise (A := unit) (WorkError 1)) fresh_world)) = 0%nat.
Proof.
  split; [reflexivity|].
  exact (proj2
    (connector_closes_on_every_way_out env_up (mkToken "token" 120 0)
       (fun _ => raise (A := unit) (WorkError 1)) fresh_world)
    (fun _ _ => eq_refl)).
Defined.

Lemma main_never_raises_and_leaves_nothing_open_witness :
  (forall (c : nat) w0, heap (snd (raise (A := unit) (WorkError 1) w0)) = heap w0) /\
  fst (Connector.main env_up (fun _ => raise (WorkError 1)) fresh_world) = Ok tt /\
  live_connections
    (snd (Connector.main env_up (fun _ => raise (WorkError 1)) fresh_world)) = 0%nat.
Proof.
  split; [reflexivity|].
  destruct (main_never_raises_and_leaves_nothing_open env_up
              (fun _ => raise (WorkError 1)) fresh_world) as [Hok Hlive].
  split; [exact Hok|]. exact (Hlive (fun _ _ => eq_refl)).
Defined.

(** ** The do_connect handler of the SQLAlchemy variant *)

Section Handler.

Variable E : Env.

Lemma receive_do_connect_run cparams w :
  SQLAlchemyVariant.receive_do_connect E (cparams, w) =
    match get_auth_token E 5 w with
    | (Raise e, w1) => (Raise e, (cparams, w1))
    | (Ok token, w1) =>
        (fst (psycopg2_connect E token w1),
         (<["password" := secret token]> cparams, snd (psycopg2_connect E token w1)))
    end.
Proof.
  unfold SQLAlchemyVariant.receive_do_connect, bind, in_world, modify. simpl.
  destruct (get_auth_token E 5 w) as [[tok|e] w1]; simpl; [|done].
  by destruct (psycopg2_connect E tok w1) as [[c|e] w2].
Qed.

Lemma receive_do_connect_one_creation cparams w :
  one_creation_at_most w
    (snd (snd (SQLAlchemyVariant.receive_do_connect E (cparams, w)))).
Proof.
  rewrite receive_do_connect_run.
  pose proof (get_auth_token_effect E 5 w) as Ha. cbv zeta in Ha.
  destruct (get_auth_token E 5 w) as [[tok|e] w1]; cbn [fst snd] in *;
    destruct Ha as (_ & _ & Hac & Hcc & _ & _ & Hres); right.
  - pose proof (psycopg2_connect_effect E tok w1) as Hb. cbv zeta in Hb.
    destruct Hb as (_ & Hac2 & Hcc2 & _). destruct Hres as [Hid _].
    split; [congruence|]. right. by rewrite Hcc2, Hcc, Hid.
  - split; [done|]. by left.
Qed.

(** X14: a call of the handler that opens a connection asked the identity
    service for a token in that very call, with a validity of 5 seconds,
    stored the token under ["password"] in [cparams], over whatever was
    there, and opened the connection with it; every other entry of
    [cparams] is left alone.  If the token cannot be had, [cparams] is
    untouched and no connect is attempted. *)
Theorem do_connect_stores_and_uses_a_new_token cparams w :
  let r := SQLAlchemyVariant.receive_do_connect E (cparams, w) in
  let cparams' := fst (snd r) in
  let w' := snd (snd r) in
  match fst r with
  | Ok c =>
      exists tok,
        mint_id tok = auth_calls w /\ expires_in tok = 5 /\ secret tok <> "" /\
        cparams' !! "password" = Some (secret tok) /\
        (forall k, k <> "password" -> cparams' !! k = cparams !! k) /\
        c = length (heap w) /\
        heap w' = heap w ++ [mkPg tok false]
  | Raise e =>
      creation_error e /\ heap w' = heap w /\
      (fst (get_auth_token E 5 w) = Raise e ->
       cparams' = cparams /\ connect_calls w' = connect_calls w)
  end.
Proof.
  cbv zeta. rewrite receive_do_connect_run.
  pose proof (get_auth_token_effect E 5 w) as Ha. cbv zeta in Ha.
  pose proof (get_auth_token_returns_nonempty E 5 w) as Hne.
  destruct (get_auth_token E 5 w) as [[tok|e] w1]; cbn [fst snd] in *;
    destruct Ha as (_ & Hheap & _ & Hcc & _ & _ & Hres).
  - pose proof (psycopg2_connect_effect E tok w1) as Hb. cbv zeta in Hb.
    destruct (psycopg2_connect E tok w1) as [[c|e] w2]; cbn [fst snd] in *;
      destruct Hb as (_ & _ & _ & _ & _ & Hc & Hh2).
    + destruct Hres as [Hid Httl]. exists tok.
      split; [done|]. split; [done|]. split; [by apply Hne|].
      split; [by rewrite lookup_insert_eq|].
      split; [intros k Hk; by rewrite lookup_insert_ne|].
      split; [congruence|]. by rewrite Hh2, Hheap.
    + subst e. split; [done|]. split; [congruence|]. intros [=].
  - split; [done|]. split; [done|]. by intros _.
Qed.

(** X15: in the SQLAlchemy variant too every connect has a token of its
    own.  However many connections the engine asks the handler for, and
    with whatever dictionaries, the connects made, failed ones included,
    were each made with the token of a different, earlier call to the
    identity service. *)
Theorem do_connects_never_share_a_token dicts :
  let w := SQLAlchemyVariant.do_connects E dicts fresh_world in
  NoDup (connect_calls w) /\
  Forall (fun i => (i < auth_calls w)%nat) (connect_calls w).
Proof.
  assert (forall w0, tokens_fresh w0 ->
                     tokens_fresh (SQLAlchemyVariant.do_connects E dicts w0)) as Hrun.
  { induction dicts as [|cparams dicts IH]; intros w0 Hf; simpl; [done|].
    apply IH. eapply tokens_fresh_advance; [|exact Hf].
    apply receive_do_connect_one_creation. }
  apply Hrun. split; [apply NoDup_nil_2|apply Forall_nil_2].
Qed.

End Handler.

(** ** DSQLPoolManager behind its driver pool *)

Section Facade.

Import Psycopg2Variant.

Variable E : Env.
Variable getconn : M (ThreadedConnectionPool * World) nat.
Variable putconn : nat -> bool -> M (ThreadedConnectionPool * World) unit.
Variable driver_closeall : M (ThreadedConnectionPool * World) unit.

Lemma release_never_raises connection s :
  fst (Psycopg2Facade.release putconn connection s) = Ok tt /\
  forall c e, connection = Some c ->
              fst (putconn c false s) = Raise e ->
              is_closed (snd (snd (Psycopg2Facade.release putconn connection s))) c = true.
Proof.
  unfold Psycopg2Facade.release. destruct connection as [c|]; [|by split].
  unfold try_except, in_world. split.
  - by destruct (putconn c false s) as [[[]|e] s1].
  - intros c' e' [= <-] He.
    destruct (putconn c false s) as [[[]|e] s1]; simpl in *; [done|].
    apply is_closed_mark_closed.
Qed.

(** X16: after a [close_all] that did not raise, the manager has no pool
    any more.  A second [close_all] does nothing at all, and
    [get_db_connection] raises the pool-not-initialised exception at once:
    the body is not run and neither the manager nor the world changes. *)
Theorem manager_is_inert_after_close_all {A} (work : nat -> M World A) s :
  fst (Psycopg2Facade.close_all driver_closeall s) = Ok tt ->
  let s1 := snd (Psycopg2Facade.close_all driver_closeall s) in
  pool (fst s1) = None /\
  Psycopg2Facade.close_all driver_closeall s1 = (Ok tt, s1) /\
  Psycopg2Facade.get_db_connection E getconn putconn work s1
    = (Raise PoolNotInitialized, s1).
Proof.
  intros Hok. cbv zeta.
  assert (pool (fst (snd (Psycopg2Facade.close_all driver_closeall s))) = None) as Hnone.
  { unfold Psycopg2Facade.close_all in *. destruct s as [self w]. simpl in *.
    destruct (pool self) as [tp|] eqn:Hp; simpl; [|done].
    by destruct (driver_closeall (tp, w)) as [[[]|e] [tp' w']]. }
  split; [done|]. split.
  - unfold Psycopg2Facade.close_all at 1. by rewrite Hnone.
  - unfold Psycopg2Facade.get_db_connection. by rewrite Hnone.
Qed.

Lemma get_db_connection_run {A} (work : nat -> M World A) self tp w :
  pool self = Some tp ->
  Psycopg2Facade.get_db_connection E getconn putconn work (self, w) =
    match Psycopg2Facade.before_yield E getconn putconn (tp, w) with
    | (Psycopg2Facade.Yield c, s1) =>
        let released :=
          snd (Psycopg2Facade.release putconn (Some c) (fst s1, snd (work c (snd s1)))) in
        (fst (work c (snd s1)),
         (mkManager (minconn self) (maxconn self) (Some (fst released)), snd released))
    | (Psycopg2Facade.Fail connection e, s1) =>
        let released := snd (Psycopg2Facade.release putconn connection s1) in
        (Raise e,
         (mkManager (minconn self) (maxconn self) (Some (fst released)), snd released))
    end.
Proof.
  intros Hp. unfold Psycopg2Facade.get_db_connection. cbn [fst snd]. rewrite Hp.
  destruct (Psycopg2Facade.before_yield E getconn putconn (tp, w))
    as [[c|connection e] [tp1 w1]]; cbn [fst snd].
  - unfold try_finally, try_except, in_world, raise. cbn [fst snd].
    destruct (work c w1) as [r0 w2]. cbn [fst snd].
    pose proof (proj1 (release_never_raises (Some c) (tp1, w2))) as Hrel.
    destruct r0 as [a|e0];
      by destruct (Psycopg2Facade.release putconn (Some c) (tp1, w2))
           as [[[]|e1] [tp2 w3]].
  - unfold try_finally, raise.
    pose proof (proj1 (release_never_raises connection (tp1, w1))) as Hrel.
    by destruct (Psycopg2Facade.release putconn connection (tp1, w1))
      as [[[]|e1] [tp2 w3]].
Qed.

(** X17: the [finally] clause of [get_db_connection] never changes what the
    caller sees.  If the connection reached the body, the caller gets the
    outcome of the body; if the checkout failed, the caller gets that
    failure.  A [putconn] that raises in the [finally] clause is swallowed,
    and the connection is then closed directly.  The manager keeps its
    pool. *)
Theorem manager_release_never_masks_the_outcome
    {A} (work : nat -> M World A) self tp w :
  pool self = Some tp ->
  let r := Psycopg2Facade.get_db_connection E getconn putconn work (self, w) in
  match Psycopg2Facade.before_yield E getconn putconn (tp, w) with
  | (Psycopg2Facade.Yield c, s1) =>
      fst r = fst (work c (snd s1)) /\
      forall e, fst (putconn c false (fst s1, snd (work c (snd s1)))) = Raise e ->
                is_closed (snd (snd r)) c = true
  | (Psycopg2Facade.Fail connection e, s1) =>
      fst r = Raise e /\
      forall c e', connection = Some c -> fst (putconn c false s1) = Raise e' ->
                   is_closed (snd (snd r)) c = true
  end /\
  pool (fst (snd r)) <> None.
Proof.
  intros Hp. cbv zeta. rewrite (get_db_connection_run work self tp w Hp).
  destruct (Psycopg2Facade.before_yield E getconn putconn (tp, w))
    as [[c|connection e] [tp1 w1]]; cbn [fst snd].
  - split; [|done]. split; [done|]. intros e He.
    by apply (proj2 (release_never_raises (Some c) (tp1, snd (work c w1))) c e).
  - split; [|done]. split; [done|]. intros c e' Hc He'.
    by apply (proj2 (release_never_raises connection (tp1, w1)) c e').
Qed.

End Facade.

Lemma manager_is_inert_after_close_all_witness :
  let tp := Psycopg2Variant.mkThreaded 1 2 (mkToken "token" 120 0) [0%nat] [] false in
  let s := (Psycopg2Variant.mkManager 1 2 (Some tp),
            mkWorld 0 [mkPg (mkToken "token" 120 0) false] true 1 [0%nat] 0 []) in
  let s1 := snd (Psycopg2Facade.close_all Psycopg2Variant.closeall s) in
  fst (Psycopg2Facade.close_all Psycopg2Variant.closeall s) = Ok tt /\
  Psycopg2Facade.get_db_connection env_up
    (fun st => (Raise PoolError, st)) (fun _ _ st => (Ok tt, st))
    (fun _ => ret tt) s1
  = (Raise PoolNotInitialized, s1).
Proof.
  cbv zeta. split; [reflexivity|].
  exact (proj2 (proj2
    (manager_is_inert_after_close_all env_up
       (fun st => (Raise PoolError, st)) (fun _ _ st => (Ok tt, st))
       Psycopg2Variant.closeall (fun _ => ret tt)
       (Psycopg2Variant.mkManager 1 2
          (Some (Psycopg2Variant.mkThreaded 1 2 (mkToken "token" 120 0) [0%nat] [] false)),
        mkWorld 0 [mkPg (mkToken "token" 120 0) false] true 1 [0%nat] 0 [])
       eq_refl))).
Defined.

Lemma manager_release_never_masks_the_outcome_witness :
  let tp := Psycopg2Variant.mkThreaded 1 2 (mkToken "token" 120 0) [0%nat] [] false in
  let self := Psycopg2Variant.mkManager 1 2 (Some tp) in
  let w := mkWorld 0 [mkPg (mkToken "token" 120 0) false] true 1 [0%nat] 0 [] in
  let r := Psycopg2Facade.get_db_connection env_up
             (fun st => (Ok 0%nat, st)) (fun _ _ st => (Raise PoolError, st))
             (fun _ => raise (A := unit) (WorkError 3)) (self, w) in
  Psycopg2Variant.pool self = Some tp /\
  fst r = Raise (WorkError 3) /\
  is_closed (snd (snd r)) 0 = true.
Proof.
  cbv zeta. split; [reflexivity|].
  pose proof (manager_release_never_masks_the_outcome env_up
                (fun st => (Ok 0%nat, st)) (fun _ _ st => (Raise PoolError, st))
                (fun _ => raise (A := unit) (WorkError 3))
                (Psycopg2Variant.mkManager 1 2
                   (Some (Psycopg2Variant.mkThreaded 1 2 (mkToken "token" 120 0)
                            [0%nat] [] false)))
                (Psycopg2Variant.mkThreaded 1 2 (mkToken "token" 120 0) [0%nat] [] false)
                (mkWorld 0 [mkPg (mkToken "token" 120 0) false] true 1 [0%nat] 0 [])
                eq_refl) as [[Hout Hclosed] _].
  split; [exact Hout|]. exact (Hclosed PoolError eq_refl).
Defined.

(** ** The pre-warming of DSQLPoolManager *)

Section DriverPrewarm.

Import Psycopg2Variant.

Variable E : Env.

Lemma tp_round_run tp w :
  (tp_connect E ;;; ret tt) (tp, w) =
    match psycopg2_connect E (tp_password tp) w with
    | (Ok c, w') =>
        (Ok tt, (mkThreaded (tp_minconn tp) (tp_maxconn tp) (tp_password tp)
                            (tp_pool tp ++ [c]) (tp_used tp) (tp_closed tp), w'))
    | (Raise e, w') => (Raise e, (tp, w'))
    end.
Proof.
  unfold bind, tp_connect, ret. cbn [fst snd].
  by destruct (psycopg2_connect E (tp_password tp) w) as [[c|e] w'].
Qed.

Lemma tp_prewarm_effect (body : nat -> M (ThreadedConnectionPool * World) unit) n :
  (forall j s, body j s = (tp_connect E ;;; ret tt) s) ->
  forall i tp w,
  let r := for_range_from i n body (tp, w) in
  tp_password (fst (snd r)) = tp_password tp /\
  auth_calls (snd (snd r)) = auth_calls w /\
  exists k, (k <= n)%nat /\
    connect_calls (snd (snd r))
      = connect_calls w ++ replicate k (mint_id (tp_password tp)) /\
    (fst r = Ok tt ->
     k = n /\ length (tp_pool (fst (snd r))) = (length (tp_pool tp) + n)%nat).
Proof.
  intros Hbody.
  induction n as [|n IH]; intros i tp w; cbn [for_range_from]; cbv zeta.
  - unfold ret. cbn [fst snd]. repeat split.
    exists 0%nat. simpl. rewrite app_nil_r. repeat split; lia.
  - unfold bind. rewrite Hbody, tp_round_run.
    pose proof (psycopg2_connect_effect E (tp_password tp) w) as Hc. cbv zeta in Hc.
    destruct (psycopg2_connect E (tp_password tp) w) as [[c|e] w1]; cbn [fst snd] in *;
      destruct Hc as (_ & Ha & Hcc & _).
    + specialize (IH (Datatypes.S i)
                     (mkThreaded (tp_minconn tp) (tp_maxconn tp) (tp_password tp)
                                 (tp_pool tp ++ [c]) (tp_used tp) (tp_closed tp)) w1).
      cbv zeta in IH. cbn [tp_password tp_pool] in IH.
      destruct IH as (Hp & Ha' & k & Hk & Hcc' & Hok).
      split; [done|]. split; [congruence|].
      exists (Datatypes.S k). split; [lia|]. split.
      * rewrite Hcc', Hcc. simpl. by rewrite <- app_assoc.
      * intros Hr. destruct (Hok Hr) as [-> Hlen]. split; [done|].
        rewrite Hlen, length_app. simpl. lia.
    + split; [done|]. split; [done|].
      exists 1%nat. split; [lia|]. split; [by rewrite Hcc|]. by intros [=].
Qed.

Lemma DSQLPoolManager_init_run mn mx w :
  DSQLPoolManager_init E mn mx w =
    match get_auth_token E 120 w with
    | (Raise e, w1) => (Raise e, w1)
    | (Ok token, w1) =>
        match for_range_from 0 (Z.to_nat mn) (fun _ => tp_connect E ;;; ret tt)
                (mkThreaded mn mx token [] [] false, w1) with
        | (Ok _, (tp, w2)) => (Ok (mkManager mn mx (Some tp)), w2)
        | (Raise e, (_, w2)) => (Raise e, w2)
        end
    end.
Proof.
  unfold DSQLPoolManager_init, _init_pool, in_world, try_except,
    ThreadedConnectionPool_init, for_range, raise.
  unfold bind at 1.
  cbn [fst snd pool minconn maxconn].
  destruct (get_auth_token E 120 w) as [[tok|e] w1]; cbn [fst snd pool minconn maxconn];
    [|done].
  by destruct (for_range_from 0 (Z.to_nat mn) (fun _ => tp_connect E ;;; ret tt)
                 (mkThreaded mn mx tok [] [] false, w1)) as [[[]|e] [tp' w2]].
Qed.

(** X18: the constructor of [DSQLPoolManager] asks the identity service for
    exactly one token, valid for 120 seconds, and every connect of the
    pre-warming is made with that token.  If the constructor returns, the
    driver's pool holds [minconn] connections, all opened with it; if the
    token cannot be had, no connect is attempted. *)
Theorem driver_pool_prewarm_uses_one_token mn mx w :
  let r := DSQLPoolManager_init E mn mx w in
  auth_calls (snd r) = Datatypes.S (auth_calls w) /\
  (exists k, (k <= Z.to_nat mn)%nat /\
     connect_calls (snd r) = connect_calls w ++ replicate k (auth_calls w)) /\
  (forall e, fst (get_auth_token E 120 w) = Raise e ->
             fst r = Raise e /\ connect_calls (snd r) = connect_calls w) /\
  match fst r with
  | Ok self =>
      exists tp, pool self = Some tp /\
        length (tp_pool tp) = Z.to_nat mn /\
        mint_id (tp_password tp) = auth_calls w /\
        expires_in (tp_password tp) = 120 /\
        connect_calls (snd r)
          = connect_calls w ++ replicate (Z.to_nat mn) (auth_calls w)
  | Raise _ => True
  end.
Proof.
  cbv zeta. rewrite DSQLPoolManager_init_run.
  pose proof (get_auth_token_effect E 120 w) as Ha. cbv zeta in Ha.
  destruct (get_auth_token E 120 w) as [[tok|e] w1]; cbn [fst snd] in *;
    destruct Ha as (_ & _ & Hac & Hcc & _ & _ & Hres).
  - destruct Hres as [Hid Httl].
    pose proof (tp_prewarm_effect (fun _ => tp_connect E ;;; ret tt) (Z.to_nat mn)
                  (fun _ _ => eq_refl) 0 (mkThreaded mn mx tok [] [] false) w1)
      as Hloop. cbv zeta in Hloop. cbn [tp_password tp_pool length] in Hloop.
    destruct (for_range_from 0 (Z.to_nat mn) (fun _ => tp_connect E ;;; ret tt)
                (mkThreaded mn mx tok [] [] false, w1)) as [[[]|e] [tp' w2]];
      cbn [fst snd] in *;
      destruct Hloop as (Hp & Ha' & k & Hk & Hcc' & Hok).
    + destruct (Hok eq_refl) as [-> Hlen].
      split; [congruence|]. split; [exists (Z.to_nat mn); split; [lia|congruence]|].
      split; [by intros e [=]|].
      exists tp'. rewrite Hp. cbn [pool]. repeat split; try done; congruence.
    + split; [congruence|]. split; [exists k; split; [lia|congruence]|].
      split; [by intros e' [=]|done].
  - split; [done|]. split; [exists 0%nat; simpl; rewrite app_nil_r; split; [lia|done]|].
    split; [|done]. intros e' [= <-]. by split.
Qed.

End DriverPrewarm.

(** ** Releasing twice *)

Section DoubleRelease.

Variable E : Env.

(** X19: [put_connection] does not look whether the wrapper it is given is
    idle already.  Released twice into an empty queue with room for two, a
    connection is queued twice, and, open and answering the probes, it is
    handed out by each of the next two [get_connection] calls: two callers
    then hold the same connection. *)
Theorem releasing_twice_hands_the_connection_out_twice p w x :
  _pool p = [] ->
  (maxconn p <= 0 \/ 2 <= maxconn p) ->
  is_closed w (connection x) = false ->
  env_probe E (probes w) (connection x) = true ->
  env_probe E (Datatypes.S (probes w)) (connection x) = true ->
  let s2 := snd (put_connection x (snd (put_connection x (p, w)))) in
  _pool (fst s2) = [x; x] /\
  fst (get_connection E s2) = Ok x /\
  fst (get_connection E (snd (get_connection E s2))) = Ok x.
Proof.
  intros Hq Hmax Hopen Hp1 Hp2. cbv zeta.
  assert (queue_full p = false) as Hf1.
  { unfold queue_full. rewrite Hq. simpl.
    destruct Hmax; [rewrite (bool_decide_false (0 < _)) by lia; done|].
    rewrite (bool_decide_false (maxconn p <= 0)) by lia. apply andb_false_r. }
  rewrite put_connection_run, Hf1. cbn [snd].
  assert (queue_full (set_pool (_pool p ++ [x]) p) = false) as Hf2.
  { unfold queue_full. rewrite Hq. simpl.
    destruct Hmax; [rewrite (bool_decide_false (0 < _)) by lia; done|].
    rewrite (bool_decide_false (maxconn p <= 1)) by lia. apply andb_false_r. }
  rewrite put_connection_run, Hf2. cbn [snd fst]. rewrite Hq. cbn [app set_pool _pool].
  split; [done|].
  assert (healthy_verdict E w (connection x) = true) as Hv1
    by (unfold healthy_verdict; by rewrite Hopen, Hp1).
  rewrite (get_connection_healthy E _ w x [x]) by done.
  split; [done|]. cbn [snd].
  rewrite (get_connection_healthy E _ _ x []); [done|done|].
  unfold healthy_verdict.
  rewrite is_closed_log_event, is_closed_after_probe, is_closed_log_event, Hopen.
  unfold after_probe. rewrite is_closed_log_event, Hopen. simpl. by rewrite Hp2.
Qed.

End DoubleRelease.

Lemma releasing_twice_hands_the_connection_out_twice_witness :
  let s := snd (get_connection env_up (sys (boot env_up 1 2))) in
  let x := mkWrapper 0 0 in
  _pool (fst s) = [] /\
  (maxconn (fst s) <= 0 \/ 2 <= maxconn (fst s)) /\
  is_closed (snd s) 0 = false /\
  fst (get_connection env_up
         (snd (get_connection env_up
                 (snd (put_connection x (snd (put_connection x s))))))) = Ok x.
Proof.
  cbv zeta.
  assert (maxconn (fst (snd (get_connection env_up (sys (boot env_up 1 2))))) <= 0 \/
          2 <= maxconn (fst (snd (get_connection env_up (sys (boot env_up 1 2))))))
    as Hmax by (right; vm_compute; discriminate).
  split; [reflexivity|]. split; [exact Hmax|]. split; [reflexivity|].
  exact (proj2 (proj2
    (releasing_twice_hands_the_connection_out_twice env_up
       (fst (snd (get_connection env_up (sys (boot env_up 1 2)))))
       (snd (snd (get_connection env_up (sys (boot env_up 1 2)))))
       (mkWrapper 0 0) eq_refl Hmax eq_refl eq_refl eq_refl))).
Defined.
